(** * Document importances: the leaf-derivative propagator of
    [catboost/libs/documents_importance/docs_importance_helpers.cpp]

    A shallow embedding of [TDocumentImportancesEvaluator] and the
    properties of its four methods [GetLeafIdToUpdate],
    [UpdateLeavesDerivativesForTree], [UpdateLeavesDerivatives] and
    [GetDocumentImportancesForOneTrainDoc], together with the driver
    [GetDocumentImportances].

    Conventions of the embedding.
    - [TVector<T>] is [list T]; [v[i]] is the total lookup [v !!! i] and
      [v[i] op= x] is [alter] at [i].  An index past the end is undefined
      behaviour in the source; here such a read yields the default and such
      a write is dropped, and the theorems state the range facts they need.
    - [ui32] values are [nat]; the one place where the width shows, the
      shift [1 << TreeSizes[treeId]], is reduced modulo [2^32].
    - [double] is an abstract carrier [D] with the operations the source
      uses and no algebraic law, so every statement holds for IEEE-754
      binary64 (the instance [float_ops]) as it does for an exact field.
    - The two [ExecRange] calls run independent tasks that write disjoint
      slots; they are embedded as folds in index order. *)

From Stdlib Require Import Floats.PrimFloat.
From Stdlib Require Import NArith.
From stdpp Require Import base numbers list sorting.

(** ** Arithmetic of [double] *)

Class DoubleOps (D : Type) := {
  d_zero : D;
  d_add : D → D → D;
  d_mul : D → D → D;
  d_div : D → D → D;
  d_opp : D → D;
  d_abs : D → D;
  (** [x > y] *)
  d_gt : D → D → bool;
  (** [x == 0.0]; not used by the source, only by the guarded reading of
      its divisions *)
  d_is_zero : D → bool
}.

Declare Scope double_scope.
Delimit Scope double_scope with dbl.
Infix "⊕" := d_add (at level 50, left associativity) : double_scope.
Infix "⊗" := d_mul (at level 40, left associativity) : double_scope.
Infix "⊘" := d_div (at level 40, left associativity) : double_scope.
Notation "⊖ x" := (d_opp x) (at level 35, right associativity) : double_scope.
Open Scope double_scope.

#[global] Instance double_inhabited `{DoubleOps D} : Inhabited D := populate d_zero.

(** IEEE-754 binary64, the arithmetic the compiled source runs on. *)
#[global] Instance float_ops : DoubleOps float := {|
  d_zero := 0%float;
  d_add := PrimFloat.add;
  d_mul := PrimFloat.mul;
  d_div := PrimFloat.div;
  d_opp := PrimFloat.opp;
  d_abs := PrimFloat.abs;
  d_gt := λ x y, PrimFloat.ltb y x;
  d_is_zero := λ x, PrimFloat.eqb x 0%float
|}.

(** ** External collaborators *)

(** [Sort(begin, end, cmp)] of [util/generic/algorithm.h], on a vector of
    leaf ids. *)
Class SortAlgorithm := {
  Sort : (nat → nat → bool) → list nat → list nat
}.

(** The pool and the two collaborators that read it.
    [BuildIndicesForBinTree pool treeId] stands for
    [BuildIndicesForBinTree(Model, BinarizeFeatures(Model, pool), treeId)],
    and [EvaluateDerivatives approxes pool] for the first-derivative vector
    that [EvaluateDerivatives(LossFunction, LeafEstimationMethod, approxes,
    pool, &firstDerivatives, nullptr, nullptr)] stores. *)
Class Collaborators (D : Type) := {
  TPool : Type;
  GetDocCount : TPool → nat;
  BuildIndicesForBinTree : TPool → nat → list nat;
  EvaluateDerivatives : list D → TPool → list D
}.

(** ** Data model *)

Record TTreeStatistics (D : Type) := {
  LeafCount : nat;
  LeafIndices : list nat;                       (* [docCount] *)
  LeavesDocId : list (list nat);                (* [leafCount][...] *)
  LeafValues : list (list D);                   (* [it][leafCount] *)
  FormulaDenominators : list (list D);          (* [it][leafCount] *)
  FormulaNumeratorAdding : list (list D);       (* [it][docCount] *)
  FormulaNumeratorMultiplier : list (list D)    (* [it][docCount] *)
}.
Arguments LeafCount {D} _.
Arguments LeafIndices {D} _.
Arguments LeavesDocId {D} _.
Arguments LeafValues {D} _.
Arguments FormulaDenominators {D} _.
Arguments FormulaNumeratorAdding {D} _.
Arguments FormulaNumeratorMultiplier {D} _.

#[global] Instance TTreeStatistics_inhabited {D} : Inhabited (TTreeStatistics D) :=
  populate {| LeafCount := 0; LeafIndices := []; LeavesDocId := [];
              LeafValues := []; FormulaDenominators := [];
              FormulaNumeratorAdding := []; FormulaNumeratorMultiplier := [] |}.

(** [EUpdateType] is declared outside this file.  [GetLeafIdToUpdate] tests
    for [AllPoints], then for [TopKLeaves], and has no final [else]: the
    third constructor is every other value of the enumeration. *)
Inductive EUpdateType := AllPoints | TopKLeaves | SinglePoint.

#[global] Instance EUpdateType_eq_dec : EqDecision EUpdateType.
Proof. solve_decision. Defined.

Record TUpdateMethod := {
  UpdateType : EUpdateType;
  (** the value after the conversion [Min<ui32>] applies to it *)
  TopSize : nat
}.

Record TDocumentImportancesEvaluator (D : Type) := {
  (** [Model.ObliviousTrees.TreeSizes]: the depth of every tree *)
  TreeSizes : list nat;
  TreesStatistics : list (TTreeStatistics D);
  TreeCount : nat;
  DocCount : nat;
  LeavesEstimationIterations : nat;
  LearningRate : D;
  UpdateMethod : TUpdateMethod;
  FinalFirstDerivatives : list D
}.
Arguments TreeSizes {D} _.
Arguments TreesStatistics {D} _.
Arguments TreeCount {D} _.
Arguments DocCount {D} _.
Arguments LeavesEstimationIterations {D} _.
Arguments LearningRate {D} _.
Arguments UpdateMethod {D} _.
Arguments FinalFirstDerivatives {D} _.

Definition set_FinalFirstDerivatives {D} (ffd : list D)
    (ev : TDocumentImportancesEvaluator D) : TDocumentImportancesEvaluator D :=
  {| TreeSizes := TreeSizes ev;
     TreesStatistics := TreesStatistics ev;
     TreeCount := TreeCount ev;
     DocCount := DocCount ev;
     LeavesEstimationIterations := LeavesEstimationIterations ev;
     LearningRate := LearningRate ev;
     UpdateMethod := UpdateMethod ev;
     FinalFirstDerivatives := ffd |}.

Definition set_UpdateMethod {D} (um : TUpdateMethod)
    (ev : TDocumentImportancesEvaluator D) : TDocumentImportancesEvaluator D :=
  {| TreeSizes := TreeSizes ev;
     TreesStatistics := TreesStatistics ev;
     TreeCount := TreeCount ev;
     DocCount := DocCount ev;
     LeavesEstimationIterations := LeavesEstimationIterations ev;
     LearningRate := LearningRate ev;
     UpdateMethod := um;
     FinalFirstDerivatives := FinalFirstDerivatives ev |}.

(** ** The methods *)

Section Methods.
Context {D : Type} `{!DoubleOps D} {sorter : SortAlgorithm} {collaborators : Collaborators D}.

Implicit Types (ev : TDocumentImportancesEvaluator D).
Implicit Types (jacobian : list D).

(** [v[i] += x] *)
Definition add_at (i : nat) (x : D) (v : list D) : list D :=
  alter (λ y, y ⊕ x) i v.

(** [v[i] *= x] *)
Definition mul_at (i : nat) (x : D) (v : list D) : list D :=
  alter (λ y, y ⊗ x) i v.

(** [Fill(v.begin(), v.end(), x)] *)
Definition Fill (x : D) (v : list D) : list D := replicate (length v) x.

(** [const ui32 leafCount = 1 << Model.ObliviousTrees.TreeSizes[treeId]] *)
Definition leafCountOf ev (treeId : nat) : nat :=
  N.to_nat (N.shiftl 1 (N.of_nat (TreeSizes ev !!! treeId)) mod 2 ^ 32)%N.

(** The loop of lines 56-58, which fills [leafJacobians]. *)
Definition leafJacobiansOf ev (treeId : nat) jacobian : list D :=
  let leafIndices := LeafIndices (TreesStatistics ev !!! treeId) in
  foldl (λ leafJacobians docId,
           add_at (leafIndices !!! docId) (d_abs (jacobian !!! docId)) leafJacobians)
        (replicate (leafCountOf ev treeId) d_zero)
        (seq 0 (DocCount ev)).

Definition GetLeafIdToUpdate ev (treeId : nat) jacobian : list nat :=
  let leafCount := leafCountOf ev treeId in
  match UpdateType (UpdateMethod ev) with
  | AllPoints => seq 0 leafCount
  | TopKLeaves =>
      let leafJacobians := leafJacobiansOf ev treeId jacobian in
      let orderedLeafIndices :=
        Sort (λ firstDocId secondDocId,
                d_gt (leafJacobians !!! firstDocId) (leafJacobians !!! secondDocId))
             (seq 0 leafCount) in
      take (TopSize (UpdateMethod ev) `min` leafCount) orderedLeafIndices
  | SinglePoint => []
  end.

(** The body of the loop over [leafIdToUpdate], lines 151-158. *)
Definition updateLeaf ev (removedDocId : nat) jacobian (treeId it : nat)
    (st : list D * bool) (leafId : nat) : list D * bool :=
  let treeStatistics := TreesStatistics ev !!! treeId in
  let formulaNumeratorMultiplier := FormulaNumeratorMultiplier treeStatistics !!! it in
  let formulaNumeratorAdding := FormulaNumeratorAdding treeStatistics !!! it in
  let formulaDenominators := FormulaDenominators treeStatistics !!! it in
  let removedDocLeafId := LeafIndices treeStatistics !!! removedDocId in
  let '(leafDerivativesRef, isRemovedDocUpdated) := st in
  let leafDerivativesRef :=
    foldl (λ ld docId,
             add_at leafId (formulaNumeratorMultiplier !!! docId ⊗ jacobian !!! docId) ld)
          leafDerivativesRef (LeavesDocId treeStatistics !!! leafId) in
  let leafDerivativesRef :=
    if decide (leafId = removedDocLeafId)
    then add_at leafId (formulaNumeratorAdding !!! removedDocId) leafDerivativesRef
    else leafDerivativesRef in
  let leafDerivativesRef :=
    mul_at leafId (⊖ LearningRate ev ⊘ formulaDenominators !!! leafId)
           leafDerivativesRef in
  (leafDerivativesRef, isRemovedDocUpdated || bool_decide (leafId = removedDocLeafId)).

(** The correction of lines 161-163. *)
Definition correctRemovedDocLeaf ev (removedDocId : nat) jacobian (treeId it : nat)
    (leafDerivativesRef : list D) : list D :=
  let treeStatistics := TreesStatistics ev !!! treeId in
  let formulaNumeratorMultiplier := FormulaNumeratorMultiplier treeStatistics !!! it in
  let formulaNumeratorAdding := FormulaNumeratorAdding treeStatistics !!! it in
  let formulaDenominators := FormulaDenominators treeStatistics !!! it in
  let removedDocLeafId := LeafIndices treeStatistics !!! removedDocId in
  let leafDerivativesRef :=
    add_at removedDocLeafId
           (jacobian !!! removedDocId ⊗ formulaNumeratorMultiplier !!! removedDocId)
           leafDerivativesRef in
  let leafDerivativesRef :=
    add_at removedDocLeafId (formulaNumeratorAdding !!! removedDocId) leafDerivativesRef in
  mul_at removedDocLeafId (⊖ LearningRate ev ⊘ formulaDenominators !!! removedDocLeafId)
         leafDerivativesRef.

Definition UpdateLeavesDerivativesForTree ev (leafIdToUpdate : list nat)
    (removedDocId : nat) jacobian (treeId leavesEstimationIteration : nat)
    (leafDerivatives : list D) : list D :=
  let treeStatistics := TreesStatistics ev !!! treeId in
  let leafDerivativesRef :=
    Fill d_zero (resize (LeafCount treeStatistics) d_zero leafDerivatives) in
  let '(leafDerivativesRef, isRemovedDocUpdated) :=
    foldl (updateLeaf ev removedDocId jacobian treeId leavesEstimationIteration)
          (leafDerivativesRef, false) leafIdToUpdate in
  if isRemovedDocUpdated then leafDerivativesRef
  else correctRemovedDocLeaf ev removedDocId jacobian treeId
         leavesEstimationIteration leafDerivativesRef.

(** "Updating Jacobian", lines 94-104. *)
Definition updateJacobian ev (removedDocId treeId : nat)
    (leafIdToUpdate : list nat) (leafDerivativesRef : list D) jacobian : list D :=
  let treeStatistics := TreesStatistics ev !!! treeId in
  let '(jacobian, isRemovedDocUpdated) :=
    foldl (λ '(jacobian, isRemovedDocUpdated) leafId,
             (foldl (λ jacobian docId,
                       add_at docId (leafDerivativesRef !!! leafId) jacobian)
                    jacobian (LeavesDocId treeStatistics !!! leafId),
              isRemovedDocUpdated
              || bool_decide (LeafIndices treeStatistics !!! removedDocId = leafId)))
          (jacobian, false) leafIdToUpdate in
  if isRemovedDocUpdated then jacobian
  else
    let removedDocLeafId := LeafIndices treeStatistics !!! removedDocId in
    add_at removedDocId (leafDerivativesRef !!! removedDocLeafId) jacobian.

(** One pass of the inner loop of [UpdateLeavesDerivatives], lines 80-104,
    on the pair of the jacobian and the [leafDerivatives] tensor. *)
Definition propagateIteration ev (removedDocId treeId it : nat)
    (st : list D * list (list (list D))) : list D * list (list (list D)) :=
  let '(jacobian, leafDerivatives) := st in
  let leafIdToUpdate := GetLeafIdToUpdate ev treeId jacobian in
  let leafDerivativesRef :=
    UpdateLeavesDerivativesForTree ev leafIdToUpdate removedDocId jacobian treeId it
      ((leafDerivatives !!! treeId) !!! it) in
  (updateJacobian ev removedDocId treeId leafIdToUpdate leafDerivativesRef jacobian,
   alter (λ perIteration, <[it := leafDerivativesRef]> perIteration) treeId
         leafDerivatives).

(** The two nested loops, returning the final jacobian with the tensor. *)
Definition propagate ev (removedDocId : nat)
    (leafDerivatives : list (list (list D))) : list D * list (list (list D)) :=
  foldl (λ st treeId,
           foldl (λ st it, propagateIteration ev removedDocId treeId it st)
                 st (seq 0 (LeavesEstimationIterations ev)))
        (replicate (DocCount ev) d_zero, leafDerivatives)
        (seq 0 (TreeCount ev)).

Definition UpdateLeavesDerivatives ev (removedDocId : nat)
    (leafDerivatives : list (list (list D))) : list (list (list D)) :=
  (propagate ev removedDocId leafDerivatives).2.

(** The accumulation of lines 117-125. *)
Definition predictedDerivativesOf ev (leafDerivatives : list (list (list D)))
    (leafIndices : list (list nat)) (docCount : nat) : list D :=
  foldl (λ predictedDerivatives treeId,
           foldl (λ predictedDerivatives it,
                    foldl (λ predictedDerivatives docId,
                             add_at docId
                               (((leafDerivatives !!! treeId) !!! it)
                                  !!! ((leafIndices !!! treeId) !!! docId))
                               predictedDerivatives)
                          predictedDerivatives (seq 0 docCount))
                 predictedDerivatives (seq 0 (LeavesEstimationIterations ev)))
        (replicate docCount d_zero)
        (seq 0 (TreeCount ev)).

Definition GetDocumentImportancesForOneTrainDoc ev
    (leafDerivatives : list (list (list D))) (leafIndices : list (list nat))
    (documentImportance : list D) : list D :=
  let docCount := length documentImportance in
  let predictedDerivatives :=
    predictedDerivativesOf ev leafDerivatives leafIndices docCount in
  foldl (λ documentImportance docId,
           <[docId := FinalFirstDerivatives ev !!! docId
                      ⊗ predictedDerivatives !!! docId]> documentImportance)
        documentImportance (seq 0 docCount).

(** The accumulation of lines 32-40. *)
Definition finalApproxesOf ev (leafIndices : list (list nat)) (docCount : nat) : list D :=
  foldl (λ finalApproxes treeId,
           foldl (λ finalApproxes it,
                    let leafValues :=
                      LeafValues (TreesStatistics ev !!! treeId) !!! it in
                    foldl (λ finalApproxes docId,
                             add_at docId
                               (leafValues !!! ((leafIndices !!! treeId) !!! docId))
                               finalApproxes)
                          finalApproxes (seq 0 docCount))
                 finalApproxes (seq 0 (LeavesEstimationIterations ev)))
        (replicate docCount d_zero)
        (seq 0 (TreeCount ev)).

Definition UpdateFinalFirstDerivatives ev (leafIndices : list (list nat))
    (pool : TPool) : TDocumentImportancesEvaluator D :=
  let docCount := GetDocCount pool in
  let finalApproxes := finalApproxesOf ev leafIndices docCount in
  set_FinalFirstDerivatives (EvaluateDerivatives finalApproxes pool) ev.

(** The task of the second [ExecRange], lines 19-24, for one [docId]. *)
Definition importancesRow ev (leafIndices : list (list nat)) (docId : nat)
    (row : list D) : list D :=
  let leafDerivatives :=
    replicate (TreeCount ev)
              (replicate (LeavesEstimationIterations ev) ([] : list D)) in
  let leafDerivatives := UpdateLeavesDerivatives ev docId leafDerivatives in
  GetDocumentImportancesForOneTrainDoc ev leafDerivatives leafIndices row.

(** Returns the evaluator, whose [FinalFirstDerivatives] the call
    overwrites, and the matrix. *)
Definition GetDocumentImportances ev (pool : TPool)
    : TDocumentImportancesEvaluator D * list (list D) :=
  let leafIndices := (λ treeId, BuildIndicesForBinTree pool treeId) <$> seq 0 (TreeCount ev) in
  let ev := UpdateFinalFirstDerivatives ev leafIndices pool in
  let documentImportances :=
    replicate (DocCount ev) (replicate (GetDocCount pool) d_zero) in
  (ev,
   foldl (λ documentImportances docId,
            alter (importancesRow ev leafIndices docId) docId documentImportances)
         documentImportances (seq 0 (DocCount ev))).

(** *** The divisions, guarded

    The same computation in the error monad: a division whose denominator
    compares equal to zero is an error.  The source has no such test; this
    reading only serves to say which denominators its divisions meet. *)

Definition checked_div (x y : D) : option D :=
  if d_is_zero y then None else Some (x ⊘ y).

Definition updateLeaf_checked ev (removedDocId : nat) jacobian (treeId it : nat)
    (st : list D * bool) (leafId : nat) : option (list D * bool) :=
  let treeStatistics := TreesStatistics ev !!! treeId in
  let formulaNumeratorMultiplier := FormulaNumeratorMultiplier treeStatistics !!! it in
  let formulaNumeratorAdding := FormulaNumeratorAdding treeStatistics !!! it in
  let formulaDenominators := FormulaDenominators treeStatistics !!! it in
  let removedDocLeafId := LeafIndices treeStatistics !!! removedDocId in
  let '(leafDerivativesRef, isRemovedDocUpdated) := st in
  let leafDerivativesRef :=
    foldl (λ ld docId,
             add_at leafId (formulaNumeratorMultiplier !!! docId ⊗ jacobian !!! docId) ld)
          leafDerivativesRef (LeavesDocId treeStatistics !!! leafId) in
  let leafDerivativesRef :=
    if decide (leafId = removedDocLeafId)
    then add_at leafId (formulaNumeratorAdding !!! removedDocId) leafDerivativesRef
    else leafDerivativesRef in
  scale ← checked_div (⊖ LearningRate ev) (formulaDenominators !!! leafId);
  Some (mul_at leafId scale leafDerivativesRef,
        isRemovedDocUpdated || bool_decide (leafId = removedDocLeafId)).

Definition correctRemovedDocLeaf_checked ev (removedDocId : nat) jacobian
    (treeId it : nat) (leafDerivativesRef : list D) : option (list D) :=
  let treeStatistics := TreesStatistics ev !!! treeId in
  let formulaNumeratorMultiplier := FormulaNumeratorMultiplier treeStatistics !!! it in
  let formulaNumeratorAdding := FormulaNumeratorAdding treeStatistics !!! it in
  let formulaDenominators := FormulaDenominators treeStatistics !!! it in
  let removedDocLeafId := LeafIndices treeStatistics !!! removedDocId in
  let leafDerivativesRef :=
    add_at removedDocLeafId
           (jacobian !!! removedDocId ⊗ formulaNumeratorMultiplier !!! removedDocId)
           leafDerivativesRef in
  let leafDerivativesRef :=
    add_at removedDocLeafId (formulaNumeratorAdding !!! removedDocId) leafDerivativesRef in
  scale ← checked_div (⊖ LearningRate ev) (formulaDenominators !!! removedDocLeafId);
  Some (mul_at removedDocLeafId scale leafDerivativesRef).

Definition UpdateLeavesDerivativesForTree_checked ev (leafIdToUpdate : list nat)
    (removedDocId : nat) jacobian (treeId leavesEstimationIteration : nat)
    (leafDerivatives : list D) : option (list D) :=
  let treeStatistics := TreesStatistics ev !!! treeId in
  let leafDerivativesRef :=
    Fill d_zero (resize (LeafCount treeStatistics) d_zero leafDerivatives) in
  '(leafDerivativesRef, isRemovedDocUpdated) ←
    foldl (λ st leafId,
             st ≫= λ st, updateLeaf_checked ev removedDocId jacobian treeId
                           leavesEstimationIteration st leafId)
          (Some (leafDerivativesRef, false)) leafIdToUpdate;
  if (isRemovedDocUpdated : bool) then Some leafDerivativesRef
  else correctRemovedDocLeaf_checked ev removedDocId jacobian treeId
         leavesEstimationIteration leafDerivativesRef.

End Methods.

(** ** Vocabulary of the statements *)

Section Vocabulary.
Context {D : Type} `{!DoubleOps D} {sorter : SortAlgorithm}.

Implicit Types (ev : TDocumentImportancesEvaluator D).

(** A sum of doubles in the order of the list, from [0.0]. *)
Definition d_sum (l : list D) : D := foldl d_add d_zero l.

(** [sum over doc in LeavesDocId[L] of FormulaNumeratorMultiplier[doc] *
    jacobian[doc]] *)
Definition bucketSum ev (jacobian : list D) (treeId it leafId : nat) : D :=
  let treeStatistics := TreesStatistics ev !!! treeId in
  d_sum ((λ docId, (FormulaNumeratorMultiplier treeStatistics !!! it) !!! docId
                   ⊗ jacobian !!! docId)
           <$> LeavesDocId treeStatistics !!! leafId).

(** [-LearningRate / FormulaDenominators[L]] *)
Definition leafScale ev (treeId it leafId : nat) : D :=
  ⊖ LearningRate ev
  ⊘ (FormulaDenominators (TreesStatistics ev !!! treeId) !!! it) !!! leafId.

(** The training documents a tree assigns to a leaf, in ascending order. *)
Definition docsOfLeaf ev (treeId leafId : nat) : list nat :=
  filter (λ docId, LeafIndices (TreesStatistics ev !!! treeId) !!! docId = leafId)
         (seq 0 (DocCount ev)).

(** [sum of |jacobian[doc]|] over the documents assigned to a leaf *)
Definition leafMass ev (jacobian : list D) (treeId leafId : nat) : D :=
  d_sum ((λ docId, d_abs (jacobian !!! docId)) <$> docsOfLeaf ev treeId leafId).

(** The pairs (tree, iteration) in the order the loops visit them. *)
Definition iterationPairs (treeCount iterations : nat) : list (nat * nat) :=
  treeId ← seq 0 treeCount; (λ it, (treeId, it)) <$> seq 0 iterations.

(** The pairs visited before (treeId, it). *)
Definition iterationPairsBefore (iterations treeId it : nat) : list (nat * nat) :=
  iterationPairs treeId iterations ++ ((λ it, (treeId, it)) <$> seq 0 it).

(** One pass of the inner loop of [UpdateLeavesDerivatives], on the
    jacobian alone. *)
Definition jacobianStep ev (removedDocId : nat) (jacobian : list D)
    (p : nat * nat) : list D :=
  let leafIdToUpdate := GetLeafIdToUpdate ev p.1 jacobian in
  updateJacobian ev removedDocId p.1 leafIdToUpdate
    (UpdateLeavesDerivativesForTree ev leafIdToUpdate removedDocId jacobian p.1 p.2 [])
    jacobian.

(** The jacobian on entry to iteration [it] of tree [treeId]. *)
Definition jacobianBefore ev (removedDocId treeId it : nat) : list D :=
  foldl (jacobianStep ev removedDocId) (replicate (DocCount ev) d_zero)
        (iterationPairsBefore (LeavesEstimationIterations ev) treeId it).

(** The tensor [leafDerivatives] that the task of [removedDocId] computes. *)
Definition leafDerivativesOf ev (removedDocId : nat) : list (list (list D)) :=
  UpdateLeavesDerivatives ev removedDocId
    (replicate (TreeCount ev)
               (replicate (LeavesEstimationIterations ev) ([] : list D))).

(** A comparator is a strict weak ordering on the elements of a list:
    what [Sort] asks of its comparator. *)
Definition StrictWeakOrderOn (cmp : nat → nat → bool) (l : list nat) : Prop :=
  (∀ a, a ∈ l → cmp a a = false)
  ∧ (∀ a b c, a ∈ l → b ∈ l → c ∈ l →
       cmp a b = true → cmp b c = true → cmp a c = true)
  ∧ (∀ a b c, a ∈ l → b ∈ l → c ∈ l →
       cmp a b = false → cmp b a = false →
       cmp b c = false → cmp c b = false →
       cmp a c = false ∧ cmp c a = false).

(** The invariants of the data model for one tree: the leaf count is that
    of the depth, every training document has a leaf in range, and
    [LeavesDocId] is the inverse of [LeafIndices]. *)
Definition TreeWellFormed ev (treeId : nat) : Prop :=
  let treeStatistics := TreesStatistics ev !!! treeId in
  TreeSizes ev !!! treeId < 32
  ∧ LeafCount treeStatistics = 2 ^ (TreeSizes ev !!! treeId)
  ∧ Forall (λ docId,
              LeafIndices treeStatistics !!! docId < LeafCount treeStatistics
              ∧ docId ∈ LeavesDocId treeStatistics
                         !!! (LeafIndices treeStatistics !!! docId))
           (seq 0 (DocCount ev))
  ∧ Forall (λ leafId,
              NoDup (LeavesDocId treeStatistics !!! leafId)
              ∧ Forall (λ docId,
                          docId < DocCount ev
                          ∧ LeafIndices treeStatistics !!! docId = leafId)
                       (LeavesDocId treeStatistics !!! leafId))
           (seq 0 (LeafCount treeStatistics)).

Definition WellFormed ev : Prop :=
  Forall (TreeWellFormed ev) (seq 0 (TreeCount ev)).

(** A list of updates [v[i] = f(v[i])], applied from left to right. *)
Definition apply_ops {A} (ops : list (nat * (A → A))) (v : list A) : list A :=
  foldl (λ v op, alter op.2 op.1 v) v ops.

(** What the loop body of lines 151-157 does to the entry of [leafId]. *)
Definition leafTransform ev (removedDocId : nat) (jacobian : list D)
    (treeId it leafId : nat) (y : D) : D :=
  let treeStatistics := TreesStatistics ev !!! treeId in
  let y :=
    foldl (λ y docId,
             y ⊕ (FormulaNumeratorMultiplier treeStatistics !!! it) !!! docId
                  ⊗ jacobian !!! docId)
          y (LeavesDocId treeStatistics !!! leafId) in
  let y :=
    if decide (leafId = LeafIndices treeStatistics !!! removedDocId)
    then y ⊕ (FormulaNumeratorAdding treeStatistics !!! it) !!! removedDocId
    else y in
  y ⊗ leafScale ev treeId it leafId.

(** The updates the loop over [leafIdToUpdate] performs. *)
Definition leafOps ev (removedDocId : nat) (jacobian : list D) (treeId it : nat)
    (leafIdToUpdate : list nat) : list (nat * (D → D)) :=
  (λ leafId, (leafId, leafTransform ev removedDocId jacobian treeId it leafId))
    <$> leafIdToUpdate.

(** The updates the loop over [leafIdToUpdate] of "Updating Jacobian"
    performs. *)
Definition jacobianOps ev (treeId : nat) (leafIdToUpdate : list nat)
    (leafDerivativesRef : list D) : list (nat * (D → D)) :=
  leafId ← leafIdToUpdate;
  (λ docId, (docId, λ y, y ⊕ leafDerivativesRef !!! leafId))
    <$> LeavesDocId (TreesStatistics ev !!! treeId) !!! leafId.

(** The second [ExecRange] of [GetDocumentImportances] with its tasks run
    one after the other in the order [order]. *)
Definition runRowTasks ev (leafIndices : list (list nat)) (order : list nat)
    (documentImportances : list (list D)) : list (list D) :=
  foldl (λ documentImportances docId,
           alter (importancesRow ev leafIndices docId) docId documentImportances)
        documentImportances order.

End Vocabulary.

(** ** A sort and a pool to run the methods on *)

(** Insertion sort; elements that compare equivalent keep their order. *)
Fixpoint insert_by (cmp : nat → nat → bool) (x : nat) (l : list nat) : list nat :=
  match l with
  | [] => [x]
  | y :: l' => if cmp y x then y :: insert_by cmp x l' else x :: y :: l'
  end.

Definition insertion_sort (cmp : nat → nat → bool) (l : list nat) : list nat :=
  foldr (insert_by cmp) [] l.

Definition insertion_sort_algorithm : SortAlgorithm := {| Sort := insertion_sort |}.

(** A pool that records, for every tree, the leaf of each of its documents,
    and the targets; the derivative is that of the squared error. *)
Record TTestPool := {
  poolLeafIndices : list (list nat);
  poolTargets : list float
}.

Definition test_collaborators : Collaborators float := {|
  TPool := TTestPool;
  GetDocCount := λ pool, length (poolTargets pool);
  BuildIndicesForBinTree := λ pool treeId, poolLeafIndices pool !!! treeId;
  EvaluateDerivatives := λ approxes pool,
    zip_with (λ target approx, PrimFloat.sub target approx) (poolTargets pool) approxes
|}.

(** Two trees of depth one over three training documents, two leaf
    estimation iterations, and a pool of two documents. *)
Definition exampleStatistics0 : TTreeStatistics float := {|
  LeafCount := 2;
  LeafIndices := [0; 1; 1];
  LeavesDocId := [[0]; [1; 2]];
  LeafValues := [[0.5; -0.25]; [0.125; 0.25]]%float;
  FormulaDenominators := [[2; 4]; [2; 8]]%float;
  FormulaNumeratorAdding := [[1; -2; 3]; [0.5; 1.5; -1]]%float;
  FormulaNumeratorMultiplier := [[1; 2; 1]; [2; 1; 4]]%float
|}.

Definition exampleStatistics1 : TTreeStatistics float := {|
  LeafCount := 2;
  LeafIndices := [1; 0; 1];
  LeavesDocId := [[1]; [0; 2]];
  LeafValues := [[1; 0.5]; [-0.5; 0.75]]%float;
  FormulaDenominators := [[4; 2]; [1; 4]]%float;
  FormulaNumeratorAdding := [[2; 1; -1]; [3; -0.5; 1]]%float;
  FormulaNumeratorMultiplier := [[1; 1; 2]; [0.5; 2; 1]]%float
|}.

Definition exampleEvaluator (updateMethod : TUpdateMethod) (iterations : nat)
    : TDocumentImportancesEvaluator float := {|
  TreeSizes := [1; 1];
  TreesStatistics := [exampleStatistics0; exampleStatistics1];
  TreeCount := 2;
  DocCount := 3;
  LeavesEstimationIterations := iterations;
  LearningRate := 0.5%float;
  UpdateMethod := updateMethod;
  FinalFirstDerivatives := []
|}.

(** The first tree with a zero denominator at leaf 0 of iteration 0. *)
Definition zeroDenominatorStatistics : TTreeStatistics float := {|
  LeafCount := 2;
  LeafIndices := [0; 1; 1];
  LeavesDocId := [[0]; [1; 2]];
  LeafValues := [[0.5; -0.25]; [0.125; 0.25]]%float;
  FormulaDenominators := [[0; 4]; [2; 8]]%float;
  FormulaNumeratorAdding := [[1; -2; 3]; [0.5; 1.5; -1]]%float;
  FormulaNumeratorMultiplier := [[1; 2; 1]; [2; 1; 4]]%float
|}.

Definition zeroDenominatorEvaluator : TDocumentImportancesEvaluator float := {|
  TreeSizes := [1];
  TreesStatistics := [zeroDenominatorStatistics];
  TreeCount := 1;
  DocCount := 3;
  LeavesEstimationIterations := 2;
  LearningRate := 0.5%float;
  UpdateMethod := {| UpdateType := AllPoints; TopSize := 0 |};
  FinalFirstDerivatives := []
|}.

(** No tree at all, over three training documents. *)
Definition noTreeEvaluator : TDocumentImportancesEvaluator float := {|
  TreeSizes := [];
  TreesStatistics := [];
  TreeCount := 0;
  DocCount := 3;
  LeavesEstimationIterations := 2;
  LearningRate := 0.5%float;
  UpdateMethod := {| UpdateType := AllPoints; TopSize := 0 |};
  FinalFirstDerivatives := []
|}.

Definition examplePool : TTestPool := {|
  poolLeafIndices := [[0; 1]; [1; 1]];
  poolTargets := [1; 2]%float
|}.

Definition allPoints : TUpdateMethod := {| UpdateType := AllPoints; TopSize := 0 |}.
Definition topKLeaves (topSize : nat) : TUpdateMethod :=
  {| UpdateType := TopKLeaves; TopSize := topSize |}.
Definition singlePoint3 : TUpdateMethod := {| UpdateType := SinglePoint; TopSize := 3 |}.

(** A pool whose first target is negative and whose second is infinite. *)
Definition negativeAndInfiniteTargetsPool : TTestPool := {|
  poolLeafIndices := [[0; 1]; [1; 1]];
  poolTargets := [-1; infinity]%float
|}.

(** * Proofs *)

(** ** Folds and in-place updates *)

Section ListFacts.
Context {A : Type}.
Implicit Types (ops : list (nat * (A → A))) (v : list A).

Lemma foldl_ext_in {S B} (f g : S → B → S) (l : list B) (s : S) :
  (∀ s x, x ∈ l → f s x = g s x) → foldl f s l = foldl g s l.
Proof.
  revert s. induction l as [|x l IH]; intros s Hfg; [done|].
  simpl. rewrite Hfg; [|left]. apply IH. intros s' y Hy. apply Hfg. by right.
Qed.

Lemma foldl_bind {S B C} (f : S → C → S) (g : B → list C) (l : list B) (s : S) :
  foldl f s (l ≫= g) = foldl (λ s x, foldl f s (g x)) s l.
Proof.
  revert s. induction l as [|x l IH]; intros s; [done|].
  by rewrite bind_cons, foldl_app, IH.
Qed.

(** A loop that carries a flag next to its state. *)
Lemma foldl_with_flag {S B} (f : S → B → S) (p : B → bool) (l : list B) (s : S) (b : bool) :
  foldl (λ '(s, b) x, (f s x, b || p x)) (s, b) l
  = (foldl f s l, b || existsb p l).
Proof.
  revert s b. induction l as [|x l IH]; intros s b; simpl.
  - by rewrite orb_false_r.
  - by rewrite IH, orb_assoc.
Qed.

Lemma existsb_bool_decide_elem_of (x : nat) (l : list nat) :
  existsb (λ y, bool_decide (y = x)) l = bool_decide (x ∈ l).
Proof.
  induction l as [|y l IH]; cbn [existsb].
  - symmetry. apply bool_decide_eq_false. by intros ?%elem_of_nil.
  - rewrite IH. destruct (decide (y = x)) as [->|Hne].
    + rewrite (bool_decide_eq_true_2 (x = x)) by done. cbn [orb]. symmetry.
      apply bool_decide_eq_true. left.
    + rewrite (bool_decide_eq_false_2 (y = x)) by done. cbn [orb].
      apply bool_decide_ext. rewrite elem_of_cons.
      split; [by right|]. intros [?|?]; [congruence|done].
Qed.

(** Repeated updates of one slot are one update of that slot. *)
Lemma foldl_alter_same {B} (g : B → A → A) (i : nat) (l : list B) v :
  foldl (λ v x, alter (g x) i v) v l
  = alter (λ y, foldl (λ y x, g x y) y l) i v.
Proof.
  revert v. induction l as [|x l IH]; intros v; simpl.
  - symmetry. by apply list_alter_id.
  - rewrite IH. apply list_alter_alter_eq.
Qed.

Lemma foldl_alter_ops {B} (idx : B → nat) (g : B → A → A) (l : list B) v :
  foldl (λ v x, alter (g x) (idx x) v) v l
  = apply_ops ((λ x, (idx x, g x)) <$> l) v.
Proof. unfold apply_ops. by rewrite foldl_fmap. Qed.

Lemma ops_indices {B} (idx : B → nat) (g : B → A → A) (l : list B) :
  ((λ x, (idx x, g x)) <$> l).*1 = idx <$> l.
Proof. by rewrite <-list_fmap_compose. Qed.

Lemma ops_indices_id (g : nat → A → A) (l : list nat) :
  ((λ x, (x, g x)) <$> l).*1 = l.
Proof. by rewrite (ops_indices (λ x, x)), list_fmap_id. Qed.

Lemma apply_ops_app ops1 ops2 v :
  apply_ops (ops1 ++ ops2) v = apply_ops ops2 (apply_ops ops1 v).
Proof. apply foldl_app. Qed.

Lemma length_apply_ops ops v : length (apply_ops ops v) = length v.
Proof.
  revert v. induction ops as [|op ops IH]; intros v; [done|].
  simpl. by rewrite IH, length_alter.
Qed.

Lemma apply_ops_lookup_notin ops v i :
  i ∉ ops.*1 → apply_ops ops v !! i = v !! i.
Proof.
  revert v. induction ops as [|[j f] ops IH]; intros v Hi; [done|].
  simpl in *. apply not_elem_of_cons in Hi as [Hij Hi].
  rewrite IH by done. by apply list_lookup_alter_ne.
Qed.

Lemma apply_ops_lookup_in ops v i f :
  NoDup ops.*1 → (i, f) ∈ ops → apply_ops ops v !! i = f <$> v !! i.
Proof.
  revert v. induction ops as [|[j g] ops IH]; intros v Hnd Hin.
  - by apply elem_of_nil in Hin.
  - simpl in *. apply NoDup_cons in Hnd as [Hj Hnd].
    apply elem_of_cons in Hin as [Heq|Hin].
    + injection Heq as -> ->.
      rewrite apply_ops_lookup_notin by done. apply list_lookup_alter_eq.
    + rewrite IH by done. rewrite list_lookup_alter_ne; [done|].
      intros ->. apply Hj. apply list_elem_of_fmap. by exists (i, f).
Qed.

Lemma apply_ops_Permutation ops ops' v :
  NoDup ops.*1 → ops ≡ₚ ops' → apply_ops ops v = apply_ops ops' v.
Proof.
  intros Hnd Hperm. apply list_eq. intros i.
  assert (NoDup ops'.*1) as Hnd' by by rewrite <-Hperm.
  destruct (decide (i ∈ ops.*1)) as [Hi|Hi].
  - apply list_elem_of_fmap in Hi as ([j f] & -> & Hin). simpl.
    rewrite (apply_ops_lookup_in ops v j f) by done.
    rewrite (apply_ops_lookup_in ops' v j f); [done..|]. by rewrite <-Hperm.
  - rewrite !apply_ops_lookup_notin; [done| |done]. by rewrite <-Hperm.
Qed.

Lemma apply_ops_lookup_total_in `{!Inhabited A} ops v i f :
  NoDup ops.*1 → (i, f) ∈ ops → i < length v →
  apply_ops ops v !!! i = f (v !!! i).
Proof.
  intros Hnd Hin Hi. rewrite !list_lookup_total_alt.
  rewrite (apply_ops_lookup_in ops v i f) by done.
  destruct (lookup_lt_is_Some_2 v i Hi) as [x ->]. done.
Qed.

Lemma apply_ops_lookup_total_notin `{!Inhabited A} ops v i :
  i ∉ ops.*1 → apply_ops ops v !!! i = v !!! i.
Proof.
  intros Hi. by rewrite !list_lookup_total_alt, apply_ops_lookup_notin.
Qed.

End ListFacts.

(** ** The update of one tree in one iteration *)

Section ForTree.
Context {D : Type} `{!DoubleOps D}.

Implicit Types (ev : TDocumentImportancesEvaluator D).
Implicit Types (jacobian leafDerivatives : list D).
Implicit Types (leafIdToUpdate : list nat).

Lemma foldl_add_d_sum {B} (g : B → D) (l : list B) :
  foldl (λ y x, y ⊕ g x) d_zero l = d_sum (g <$> l).
Proof. unfold d_sum. by rewrite foldl_fmap. Qed.

Lemma Fill_resize (n : nat) leafDerivatives :
  Fill d_zero (resize n d_zero leafDerivatives) = replicate n d_zero.
Proof. unfold Fill. by rewrite length_resize. Qed.

(** On the zero-filled buffer the loop body leaves the closed form of
    the leaf derivative. *)
Lemma leafTransform_zero ev removedDocId jacobian treeId it leafId :
  leafTransform ev removedDocId jacobian treeId it leafId d_zero
  = (if decide (leafId = LeafIndices (TreesStatistics ev !!! treeId) !!! removedDocId)
     then bucketSum ev jacobian treeId it leafId
          ⊕ (FormulaNumeratorAdding (TreesStatistics ev !!! treeId) !!! it)
              !!! removedDocId
     else bucketSum ev jacobian treeId it leafId)
    ⊗ leafScale ev treeId it leafId.
Proof.
  unfold leafTransform, bucketSum. cbv zeta.
  rewrite foldl_add_d_sum. by case_decide.
Qed.

Lemma updateLeaf_alter ev removedDocId jacobian treeId it leafDerivatives b leafId :
  updateLeaf ev removedDocId jacobian treeId it (leafDerivatives, b) leafId
  = (alter (leafTransform ev removedDocId jacobian treeId it leafId) leafId
           leafDerivatives,
     b || bool_decide
            (leafId = LeafIndices (TreesStatistics ev !!! treeId) !!! removedDocId)).
Proof.
  unfold updateLeaf, add_at, mul_at. cbv zeta. f_equal.
  rewrite foldl_alter_same. case_decide.
  - rewrite !list_alter_alter_eq. apply list_alter_ext; [|done].
    intros y _. unfold leafTransform, leafScale. cbv zeta.
    by rewrite decide_True by done.
  - rewrite !list_alter_alter_eq. apply list_alter_ext; [|done].
    intros y _. unfold leafTransform, leafScale. cbv zeta.
    by rewrite decide_False by done.
Qed.

Lemma leafOps_indices ev removedDocId jacobian treeId it leafIdToUpdate :
  (leafOps ev removedDocId jacobian treeId it leafIdToUpdate).*1 = leafIdToUpdate.
Proof.
  unfold leafOps. apply ops_indices_id.
Qed.

Lemma foldl_updateLeaf ev removedDocId jacobian treeId it leafIdToUpdate
    leafDerivatives b :
  foldl (updateLeaf ev removedDocId jacobian treeId it) (leafDerivatives, b)
        leafIdToUpdate
  = (apply_ops (leafOps ev removedDocId jacobian treeId it leafIdToUpdate)
               leafDerivatives,
     b || bool_decide
            (LeafIndices (TreesStatistics ev !!! treeId) !!! removedDocId
             ∈ leafIdToUpdate)).
Proof.
  trans (foldl
           (λ '(ld, c) leafId,
              (alter (leafTransform ev removedDocId jacobian treeId it leafId)
                     leafId ld,
               c || bool_decide
                      (leafId
                       = LeafIndices (TreesStatistics ev !!! treeId)
                           !!! removedDocId)))
           (leafDerivatives, b) leafIdToUpdate).
  - apply foldl_ext_in. intros [ld c] leafId _. apply updateLeaf_alter.
  - rewrite (foldl_with_flag
               (λ ld leafId,
                  alter (leafTransform ev removedDocId jacobian treeId it leafId)
                        leafId ld)
               (λ leafId,
                  bool_decide
                    (leafId
                     = LeafIndices (TreesStatistics ev !!! treeId)
                         !!! removedDocId))).
    by rewrite foldl_alter_ops, existsb_bool_decide_elem_of.
Qed.

Lemma correctRemovedDocLeaf_alter ev removedDocId jacobian treeId it leafDerivatives :
  correctRemovedDocLeaf ev removedDocId jacobian treeId it leafDerivatives
  = alter (λ y,
             (y ⊕ jacobian !!! removedDocId
                  ⊗ (FormulaNumeratorMultiplier (TreesStatistics ev !!! treeId) !!! it)
                      !!! removedDocId
                ⊕ (FormulaNumeratorAdding (TreesStatistics ev !!! treeId) !!! it)
                    !!! removedDocId)
             ⊗ leafScale ev treeId it
                 (LeafIndices (TreesStatistics ev !!! treeId) !!! removedDocId))
          (LeafIndices (TreesStatistics ev !!! treeId) !!! removedDocId)
          leafDerivatives.
Proof.
  unfold correctRemovedDocLeaf, add_at, mul_at. cbv zeta.
  by rewrite !list_alter_alter_eq.
Qed.

(** [UpdateLeavesDerivativesForTree] as a list of slot updates on the
    zero-filled buffer, followed by the correction when the leaf of the
    removed document is not in [leafIdToUpdate]. *)
Lemma UpdateLeavesDerivativesForTree_unfold ev leafIdToUpdate removedDocId jacobian
    treeId it leafDerivatives :
  UpdateLeavesDerivativesForTree ev leafIdToUpdate removedDocId jacobian treeId it
    leafDerivatives
  = let updated :=
      apply_ops (leafOps ev removedDocId jacobian treeId it leafIdToUpdate)
                (replicate (LeafCount (TreesStatistics ev !!! treeId)) d_zero) in
    if bool_decide (LeafIndices (TreesStatistics ev !!! treeId) !!! removedDocId
                    ∈ leafIdToUpdate)
    then updated
    else correctRemovedDocLeaf ev removedDocId jacobian treeId it updated.
Proof.
  unfold UpdateLeavesDerivativesForTree. cbv zeta.
  by rewrite Fill_resize, foldl_updateLeaf.
Qed.

Lemma UpdateLeavesDerivativesForTree_buffer ev leafIdToUpdate removedDocId jacobian
    treeId it leafDerivatives leafDerivatives' :
  UpdateLeavesDerivativesForTree ev leafIdToUpdate removedDocId jacobian treeId it
    leafDerivatives
  = UpdateLeavesDerivativesForTree ev leafIdToUpdate removedDocId jacobian treeId it
      leafDerivatives'.
Proof. by rewrite !UpdateLeavesDerivativesForTree_unfold. Qed.

Lemma length_UpdateLeavesDerivativesForTree ev leafIdToUpdate removedDocId jacobian
    treeId it leafDerivatives :
  length (UpdateLeavesDerivativesForTree ev leafIdToUpdate removedDocId jacobian
            treeId it leafDerivatives)
  = LeafCount (TreesStatistics ev !!! treeId).
Proof.
  rewrite UpdateLeavesDerivativesForTree_unfold. cbv zeta.
  case_bool_decide.
  - by rewrite length_apply_ops, length_replicate.
  - rewrite correctRemovedDocLeaf_alter, length_alter.
    by rewrite length_apply_ops, length_replicate.
Qed.

Lemma leafOps_elem_of ev removedDocId jacobian treeId it leafIdToUpdate leafId :
  leafId ∈ leafIdToUpdate →
  (leafId, leafTransform ev removedDocId jacobian treeId it leafId)
  ∈ leafOps ev removedDocId jacobian treeId it leafIdToUpdate.
Proof.
  intros Hin. unfold leafOps.
  by apply (list_elem_of_fmap_2
              (λ l, (l, leafTransform ev removedDocId jacobian treeId it l))).
Qed.

Lemma updated_lookup_selected ev removedDocId jacobian treeId it leafIdToUpdate leafId :
  NoDup leafIdToUpdate → leafId ∈ leafIdToUpdate →
  leafId < LeafCount (TreesStatistics ev !!! treeId) →
  apply_ops (leafOps ev removedDocId jacobian treeId it leafIdToUpdate)
            (replicate (LeafCount (TreesStatistics ev !!! treeId)) d_zero) !!! leafId
  = leafTransform ev removedDocId jacobian treeId it leafId d_zero.
Proof.
  intros Hnd Hin Hlt.
  rewrite (apply_ops_lookup_total_in _ _ leafId
             (leafTransform ev removedDocId jacobian treeId it leafId)).
  - by rewrite lookup_total_replicate_2.
  - by rewrite leafOps_indices.
  - by apply leafOps_elem_of.
  - by rewrite length_replicate.
Qed.

Lemma updated_lookup_other ev removedDocId jacobian treeId it leafIdToUpdate leafId :
  leafId ∉ leafIdToUpdate →
  apply_ops (leafOps ev removedDocId jacobian treeId it leafIdToUpdate)
            (replicate (LeafCount (TreesStatistics ev !!! treeId)) d_zero) !!! leafId
  = d_zero.
Proof.
  intros Hin. rewrite apply_ops_lookup_total_notin by by rewrite leafOps_indices.
  rewrite list_lookup_total_alt.
  destruct (replicate _ _ !! leafId) as [x|] eqn:Hx; [|done].
  by apply lookup_replicate in Hx as [-> _].
Qed.

(** The entry of a leaf in [leafIdToUpdate]. *)
Lemma UpdateLeavesDerivativesForTree_selected ev leafIdToUpdate removedDocId jacobian
    treeId it leafDerivatives leafId :
  NoDup leafIdToUpdate → leafId ∈ leafIdToUpdate →
  leafId < LeafCount (TreesStatistics ev !!! treeId) →
  UpdateLeavesDerivativesForTree ev leafIdToUpdate removedDocId jacobian treeId it
    leafDerivatives !!! leafId
  = (if decide (leafId = LeafIndices (TreesStatistics ev !!! treeId) !!! removedDocId)
     then bucketSum ev jacobian treeId it leafId
          ⊕ (FormulaNumeratorAdding (TreesStatistics ev !!! treeId) !!! it)
              !!! removedDocId
     else bucketSum ev jacobian treeId it leafId)
    ⊗ leafScale ev treeId it leafId.
Proof.
  intros Hnd Hin Hlt.
  rewrite UpdateLeavesDerivativesForTree_unfold. cbv zeta.
  rewrite <-leafTransform_zero. case_bool_decide as Hr.
  - by apply updated_lookup_selected.
  - rewrite correctRemovedDocLeaf_alter.
    rewrite list_lookup_total_alter_ne by (intros Heq; apply Hr; by rewrite Heq).
    by apply updated_lookup_selected.
Qed.

(** The entry of the leaf of the removed document when that leaf is not in
    [leafIdToUpdate]. *)
Lemma UpdateLeavesDerivativesForTree_removed ev leafIdToUpdate removedDocId jacobian
    treeId it leafDerivatives :
  let treeStatistics := TreesStatistics ev !!! treeId in
  let removedDocLeafId := LeafIndices treeStatistics !!! removedDocId in
  removedDocLeafId ∉ leafIdToUpdate →
  removedDocLeafId < LeafCount treeStatistics →
  UpdateLeavesDerivativesForTree ev leafIdToUpdate removedDocId jacobian treeId it
    leafDerivatives !!! removedDocLeafId
  = (d_zero
     ⊕ jacobian !!! removedDocId
       ⊗ (FormulaNumeratorMultiplier treeStatistics !!! it) !!! removedDocId
     ⊕ (FormulaNumeratorAdding treeStatistics !!! it) !!! removedDocId)
    ⊗ leafScale ev treeId it removedDocLeafId.
Proof.
  intros ts rl Hr Hlt. subst ts rl.
  rewrite UpdateLeavesDerivativesForTree_unfold. cbv zeta.
  rewrite bool_decide_eq_false_2 by done.
  rewrite correctRemovedDocLeaf_alter.
  rewrite list_lookup_total_alter_eq
    by by rewrite length_apply_ops, length_replicate.
  by rewrite updated_lookup_other.
Qed.

(** Every other entry is the zero the buffer was filled with. *)
Lemma UpdateLeavesDerivativesForTree_other ev leafIdToUpdate removedDocId jacobian
    treeId it leafDerivatives leafId :
  leafId ∉ leafIdToUpdate →
  leafId ≠ LeafIndices (TreesStatistics ev !!! treeId) !!! removedDocId →
  UpdateLeavesDerivativesForTree ev leafIdToUpdate removedDocId jacobian treeId it
    leafDerivatives !!! leafId
  = d_zero.
Proof.
  intros Hin Hne.
  rewrite UpdateLeavesDerivativesForTree_unfold. cbv zeta.
  case_bool_decide as Hr.
  - by apply updated_lookup_other.
  - rewrite correctRemovedDocLeaf_alter.
    rewrite list_lookup_total_alter_ne by done.
    by apply updated_lookup_other.
Qed.

End ForTree.

(** ** The selection of leaves *)

Section Selection.
Context {D : Type} `{!DoubleOps D} {sorter : SortAlgorithm}.

(** What is assumed of [Sort]: it permutes its input, and it orders it when
    the comparator is a strict weak ordering on the elements. *)
Hypothesis Sort_Permutation : ∀ cmp l, Sort cmp l ≡ₚ l.
Hypothesis Sort_StronglySorted : ∀ cmp l,
  StrictWeakOrderOn cmp l → StronglySorted (λ a b, cmp b a = false) (Sort cmp l).

Implicit Types (ev : TDocumentImportancesEvaluator D).
Implicit Types (jacobian : list D).

Lemma leafCountOf_depth ev treeId :
  TreeSizes ev !!! treeId < 32 →
  leafCountOf ev treeId = 2 ^ (TreeSizes ev !!! treeId).
Proof.
  intros Hd. unfold leafCountOf. rewrite N.shiftl_1_l.
  rewrite N.mod_small by (apply N.pow_lt_mono_r; lia).
  change 2%N with (N.of_nat 2). by rewrite <-Nat2N.inj_pow, Nat2N.id.
Qed.

Lemma foldl_alter_lookup_filter {A B} `{!Inhabited A} (idx : B → nat)
    (g : B → A → A) (l : list B) (v : list A) (i : nat) :
  i < length v →
  foldl (λ v x, alter (g x) (idx x) v) v l !!! i
  = foldl (λ y x, g x y) (v !!! i) (filter (λ x, idx x = i) l).
Proof.
  revert v. induction l as [|x l IH]; intros v Hi; [done|].
  cbn [foldl]. rewrite IH by by rewrite length_alter.
  rewrite filter_cons. case_decide as Hx.
  - cbn [foldl]. by rewrite <-Hx, list_lookup_total_alter_eq by by rewrite Hx.
  - by rewrite list_lookup_total_alter_ne.
Qed.

(** [leafJacobians[leaf]] is the mass of the leaf. *)
Lemma leafJacobiansOf_lookup ev treeId jacobian leafId :
  leafId < leafCountOf ev treeId →
  leafJacobiansOf ev treeId jacobian !!! leafId = leafMass ev jacobian treeId leafId.
Proof.
  intros Hlt. unfold leafJacobiansOf, leafMass, docsOfLeaf, add_at. cbv zeta.
  rewrite (foldl_alter_lookup_filter
             (λ docId, LeafIndices (TreesStatistics ev !!! treeId) !!! docId)
             (λ docId y, y ⊕ d_abs (jacobian !!! docId)))
    by by rewrite length_replicate.
  rewrite lookup_total_replicate_2 by done. apply foldl_add_d_sum.
Qed.

Lemma GetLeafIdToUpdate_subseteq ev treeId jacobian :
  GetLeafIdToUpdate ev treeId jacobian ⊆ seq 0 (leafCountOf ev treeId).
Proof.
  unfold GetLeafIdToUpdate. destruct (UpdateType (UpdateMethod ev)).
  - done.
  - intros x Hx%subseteq_take. by rewrite Sort_Permutation in Hx.
  - intros x Hx. by apply elem_of_nil in Hx.
Qed.

Lemma GetLeafIdToUpdate_lt ev treeId jacobian leafId :
  leafId ∈ GetLeafIdToUpdate ev treeId jacobian → leafId < leafCountOf ev treeId.
Proof. intros Hin%GetLeafIdToUpdate_subseteq. apply elem_of_seq in Hin. lia. Qed.

Lemma GetLeafIdToUpdate_NoDup ev treeId jacobian :
  NoDup (GetLeafIdToUpdate ev treeId jacobian).
Proof.
  unfold GetLeafIdToUpdate. destruct (UpdateType (UpdateMethod ev)).
  - apply NoDup_seq.
  - assert (NoDup (Sort (λ a b, d_gt (leafJacobiansOf ev treeId jacobian !!! a)
                                     (leafJacobiansOf ev treeId jacobian !!! b))
                        (seq 0 (leafCountOf ev treeId)))) as Hnd
      by (rewrite Sort_Permutation; apply NoDup_seq).
    eapply sublist_NoDup; [exact Hnd|]. apply sublist_take.
  - apply NoDup_nil_2.
Qed.

Lemma StrictWeakOrderOn_ext (cmp cmp' : nat → nat → bool) (l : list nat) :
  (∀ a b, a ∈ l → b ∈ l → cmp a b = cmp' a b) →
  StrictWeakOrderOn cmp l → StrictWeakOrderOn cmp' l.
Proof.
  intros Heq (Hirr & Htrans & Hinc). split_and!.
  - intros a Ha. rewrite <-Heq by done. by apply Hirr.
  - intros a b c Ha Hb Hc. rewrite <-!Heq by done. by apply Htrans.
  - intros a b c Ha Hb Hc. rewrite <-!Heq by done. by apply Hinc.
Qed.

Lemma StronglySorted_ext_in (R R' : nat → nat → Prop) (l : list nat) :
  (∀ a b, a ∈ l → b ∈ l → R a b → R' a b) →
  StronglySorted R l → StronglySorted R' l.
Proof.
  intros HR Hs. induction Hs as [|a l Hs IH Hall]; constructor.
  - apply IH. intros x y Hx Hy. apply HR; by right.
  - apply Forall_forall. intros b Hb. apply HR; [left|by right|].
    by eapply Forall_forall in Hall.
Qed.

(** Under [AllPoints] every leaf is selected, and under [TopKLeaves] with
    [TopSize] at least the leaf count the selection is a permutation of
    all leaves. *)
Lemma GetLeafIdToUpdate_AllPoints ev treeId jacobian :
  UpdateType (UpdateMethod ev) = AllPoints →
  GetLeafIdToUpdate ev treeId jacobian = seq 0 (leafCountOf ev treeId).
Proof. intros Hty. unfold GetLeafIdToUpdate. by rewrite Hty. Qed.

Lemma GetLeafIdToUpdate_full ev treeId jacobian :
  UpdateType (UpdateMethod ev) = TopKLeaves →
  leafCountOf ev treeId ≤ TopSize (UpdateMethod ev) →
  GetLeafIdToUpdate ev treeId jacobian ≡ₚ seq 0 (leafCountOf ev treeId).
Proof.
  intros Hty Hk. unfold GetLeafIdToUpdate. rewrite Hty.
  rewrite take_ge; [apply Sort_Permutation|].
  rewrite Sort_Permutation, length_seq. lia.
Qed.

End Selection.

(** ** Consequences of the data-model invariants *)

Section WellFormedFacts.
Context {D : Type} `{!DoubleOps D}.

Implicit Types (ev : TDocumentImportancesEvaluator D).

Lemma WellFormed_tree ev treeId :
  WellFormed ev → treeId < TreeCount ev → TreeWellFormed ev treeId.
Proof.
  intros Hwf Hlt. unfold WellFormed in Hwf.
  rewrite Forall_forall in Hwf. apply Hwf, elem_of_seq. lia.
Qed.

Lemma TreeWellFormed_leafCountOf ev treeId :
  TreeWellFormed ev treeId →
  leafCountOf ev treeId = LeafCount (TreesStatistics ev !!! treeId).
Proof.
  intros (Hd & HL & _). by rewrite HL, leafCountOf_depth.
Qed.

Lemma TreeWellFormed_leaf_lt ev treeId docId :
  TreeWellFormed ev treeId → docId < DocCount ev →
  LeafIndices (TreesStatistics ev !!! treeId) !!! docId
  < LeafCount (TreesStatistics ev !!! treeId).
Proof.
  intros (_ & _ & Hdocs & _) Hlt. rewrite Forall_forall in Hdocs.
  apply (Hdocs docId). apply elem_of_seq. lia.
Qed.

Lemma TreeWellFormed_doc_in_bucket ev treeId docId :
  TreeWellFormed ev treeId → docId < DocCount ev →
  docId ∈ LeavesDocId (TreesStatistics ev !!! treeId)
            !!! (LeafIndices (TreesStatistics ev !!! treeId) !!! docId).
Proof.
  intros (_ & _ & Hdocs & _) Hlt. rewrite Forall_forall in Hdocs.
  apply (Hdocs docId). apply elem_of_seq. lia.
Qed.

Lemma TreeWellFormed_bucket_NoDup ev treeId leafId :
  TreeWellFormed ev treeId → leafId < LeafCount (TreesStatistics ev !!! treeId) →
  NoDup (LeavesDocId (TreesStatistics ev !!! treeId) !!! leafId).
Proof.
  intros (_ & _ & _ & Hleaves) Hlt. rewrite Forall_forall in Hleaves.
  apply (Hleaves leafId). apply elem_of_seq. lia.
Qed.

Lemma TreeWellFormed_bucket_elem ev treeId leafId docId :
  TreeWellFormed ev treeId → leafId < LeafCount (TreesStatistics ev !!! treeId) →
  docId ∈ LeavesDocId (TreesStatistics ev !!! treeId) !!! leafId →
  docId < DocCount ev
  ∧ LeafIndices (TreesStatistics ev !!! treeId) !!! docId = leafId.
Proof.
  intros (_ & _ & _ & Hleaves) Hlt Hin. rewrite Forall_forall in Hleaves.
  destruct (Hleaves leafId) as [_ Hb]; [apply elem_of_seq; lia|].
  rewrite Forall_forall in Hb. by apply Hb.
Qed.

(** The invariants do not mention the update method. *)
Lemma TreeWellFormed_set_UpdateMethod ev updateMethod treeId :
  TreeWellFormed (set_UpdateMethod updateMethod ev) treeId ↔ TreeWellFormed ev treeId.
Proof. done. Qed.

End WellFormedFacts.

(** ** The update of the jacobian *)

Section Jacobian.
Context {D : Type} `{!DoubleOps D}.

Implicit Types (ev : TDocumentImportancesEvaluator D).
Implicit Types (jacobian leafDerivativesRef : list D).
Implicit Types (leafIdToUpdate : list nat).

Lemma apply_ops_bind {A B} (g : B → list (nat * (A → A))) (l : list B) (v : list A) :
  apply_ops (l ≫= g) v = foldl (λ v x, apply_ops (g x) v) v l.
Proof. unfold apply_ops. apply foldl_bind. Qed.

Lemma existsb_bool_decide_elem_of_flip (x : nat) (l : list nat) :
  existsb (λ y, bool_decide (x = y)) l = bool_decide (x ∈ l).
Proof.
  rewrite <-existsb_bool_decide_elem_of. induction l as [|y l IH]; [done|].
  cbn [existsb]. rewrite IH. f_equal. apply bool_decide_ext. naive_solver.
Qed.

Lemma updateJacobian_unfold ev removedDocId treeId leafIdToUpdate leafDerivativesRef
    jacobian :
  updateJacobian ev removedDocId treeId leafIdToUpdate leafDerivativesRef jacobian
  = let updated :=
      apply_ops (jacobianOps ev treeId leafIdToUpdate leafDerivativesRef) jacobian in
    if bool_decide (LeafIndices (TreesStatistics ev !!! treeId) !!! removedDocId
                    ∈ leafIdToUpdate)
    then updated
    else add_at removedDocId
           (leafDerivativesRef
              !!! (LeafIndices (TreesStatistics ev !!! treeId) !!! removedDocId))
           updated.
Proof.
  unfold updateJacobian. cbv zeta.
  rewrite (foldl_with_flag
             (λ jacobian leafId,
                foldl (λ jacobian docId,
                         add_at docId (leafDerivativesRef !!! leafId) jacobian)
                      jacobian
                      (LeavesDocId (TreesStatistics ev !!! treeId) !!! leafId))
             (λ leafId,
                bool_decide
                  (LeafIndices (TreesStatistics ev !!! treeId) !!! removedDocId
                   = leafId))).
  rewrite existsb_bool_decide_elem_of_flip. cbn [orb].
  unfold jacobianOps. rewrite apply_ops_bind.
  assert (foldl
            (λ jacobian leafId,
               foldl (λ jacobian docId,
                        add_at docId (leafDerivativesRef !!! leafId) jacobian)
                     jacobian
                     (LeavesDocId (TreesStatistics ev !!! treeId) !!! leafId))
            jacobian leafIdToUpdate
          = foldl
              (λ v leafId,
                 apply_ops
                   ((λ docId, (docId, λ y, y ⊕ leafDerivativesRef !!! leafId))
                      <$> LeavesDocId (TreesStatistics ev !!! treeId) !!! leafId)
                   v)
              jacobian leafIdToUpdate) as ->; [|done].
  apply foldl_ext_in. intros v leafId _. unfold add_at.
  apply (foldl_alter_ops (λ docId, docId)
           (λ docId y, y ⊕ leafDerivativesRef !!! leafId)).
Qed.

Lemma length_updateJacobian ev removedDocId treeId leafIdToUpdate leafDerivativesRef
    jacobian :
  length (updateJacobian ev removedDocId treeId leafIdToUpdate leafDerivativesRef
            jacobian)
  = length jacobian.
Proof.
  rewrite updateJacobian_unfold. cbv zeta. unfold add_at.
  case_bool_decide; by rewrite ?length_alter, length_apply_ops.
Qed.

Lemma jacobianOps_indices ev treeId leafIdToUpdate leafDerivativesRef :
  (jacobianOps ev treeId leafIdToUpdate leafDerivativesRef).*1
  = leafIdToUpdate ≫= λ leafId, LeavesDocId (TreesStatistics ev !!! treeId) !!! leafId.
Proof.
  unfold jacobianOps. induction leafIdToUpdate as [|leafId l IH]; [done|].
  rewrite !bind_cons, fmap_app, IH. f_equal.
  rewrite <-list_fmap_compose.
  rewrite <-(list_fmap_id (LeavesDocId _ !!! leafId)) at 2.
  by apply list_fmap_ext.
Qed.

Lemma jacobianOps_NoDup ev treeId leafIdToUpdate leafDerivativesRef :
  TreeWellFormed ev treeId → NoDup leafIdToUpdate →
  (∀ leafId, leafId ∈ leafIdToUpdate →
             leafId < LeafCount (TreesStatistics ev !!! treeId)) →
  NoDup (jacobianOps ev treeId leafIdToUpdate leafDerivativesRef).*1.
Proof.
  intros Hwf Hnd Hrange. rewrite jacobianOps_indices. apply NoDup_bind; [| |done].
  - intros l1 l2 docId Hl1 Hl2 Hd1 Hd2.
    apply (TreeWellFormed_bucket_elem ev treeId) in Hd1 as [_ <-]; [|done|by apply Hrange].
    apply (TreeWellFormed_bucket_elem ev treeId) in Hd2 as [_ <-]; [|done|by apply Hrange].
    done.
  - intros leafId Hin. apply TreeWellFormed_bucket_NoDup; [done|by apply Hrange].
Qed.

Lemma jacobianOps_Permutation ev treeId leafIdToUpdate leafIdToUpdate'
    leafDerivativesRef :
  leafIdToUpdate ≡ₚ leafIdToUpdate' →
  jacobianOps ev treeId leafIdToUpdate leafDerivativesRef
  ≡ₚ jacobianOps ev treeId leafIdToUpdate' leafDerivativesRef.
Proof. intros Hperm. unfold jacobianOps. by rewrite Hperm. Qed.

(** The new jacobian, entry by entry. *)
Lemma updateJacobian_lookup ev removedDocId treeId leafIdToUpdate leafDerivativesRef
    jacobian docId :
  let treeStatistics := TreesStatistics ev !!! treeId in
  TreeWellFormed ev treeId → NoDup leafIdToUpdate →
  (∀ leafId, leafId ∈ leafIdToUpdate → leafId < LeafCount treeStatistics) →
  length jacobian = DocCount ev → removedDocId < DocCount ev → docId < DocCount ev →
  updateJacobian ev removedDocId treeId leafIdToUpdate leafDerivativesRef jacobian
    !!! docId
  = if decide (LeafIndices treeStatistics !!! docId ∈ leafIdToUpdate)
    then jacobian !!! docId
         ⊕ leafDerivativesRef !!! (LeafIndices treeStatistics !!! docId)
    else if decide (docId = removedDocId)
         then jacobian !!! removedDocId
              ⊕ leafDerivativesRef !!! (LeafIndices treeStatistics !!! removedDocId)
         else jacobian !!! docId.
Proof.
  intros ts Hwf Hnd Hrange Hlen Hr Hdoc. subst ts.
  rewrite updateJacobian_unfold. cbv zeta.
  pose proof (jacobianOps_NoDup ev treeId leafIdToUpdate leafDerivativesRef
                Hwf Hnd Hrange) as Hops.
  destruct (decide (LeafIndices (TreesStatistics ev !!! treeId) !!! docId
                    ∈ leafIdToUpdate)) as [Hsel|Hsel].
  - assert (apply_ops (jacobianOps ev treeId leafIdToUpdate leafDerivativesRef)
                      jacobian !!! docId
            = jacobian !!! docId
              ⊕ leafDerivativesRef
                  !!! (LeafIndices (TreesStatistics ev !!! treeId) !!! docId)) as Hup.
    { apply (apply_ops_lookup_total_in _ _ docId
               (λ y, y ⊕ leafDerivativesRef
                           !!! (LeafIndices (TreesStatistics ev !!! treeId) !!! docId)));
        [done| |lia].
      unfold jacobianOps. apply list_elem_of_bind.
      exists (LeafIndices (TreesStatistics ev !!! treeId) !!! docId). split; [|done].
      apply (list_elem_of_fmap_2
               (λ d, (d, λ y, y ⊕ leafDerivativesRef
                                    !!! (LeafIndices (TreesStatistics ev !!! treeId)
                                           !!! docId)))).
      by apply TreeWellFormed_doc_in_bucket. }
    case_bool_decide as Hrl; [done|].
    unfold add_at. rewrite list_lookup_total_alter_ne; [done|].
    intros <-. by apply Hrl.
  - assert (apply_ops (jacobianOps ev treeId leafIdToUpdate leafDerivativesRef)
                      jacobian !!! docId
            = jacobian !!! docId) as Hup.
    { apply apply_ops_lookup_total_notin. rewrite jacobianOps_indices.
      intros (leafId & Hin & Hleaf)%list_elem_of_bind.
      apply (TreeWellFormed_bucket_elem ev treeId) in Hin as [_ Heq];
        [|done|by apply Hrange].
      apply Hsel. by rewrite Heq. }
    case_decide as Heq.
    + subst docId. rewrite bool_decide_eq_false_2 by done.
      unfold add_at. rewrite list_lookup_total_alter_eq by (rewrite length_apply_ops; lia).
      by rewrite Hup.
    + case_bool_decide; [done|].
      unfold add_at. by rewrite list_lookup_total_alter_ne.
Qed.

End Jacobian.

(** ** The loops of [UpdateLeavesDerivatives] *)

Section Propagate.
Context {D : Type} `{!DoubleOps D} {sorter : SortAlgorithm}.

Implicit Types (ev : TDocumentImportancesEvaluator D).
Implicit Types (jacobian : list D).
Implicit Types (leafDerivatives : list (list (list D))).

Lemma iterationPairs_split treeCount iterations treeId it :
  treeId < treeCount → it < iterations →
  iterationPairs treeCount iterations
  = iterationPairsBefore iterations treeId it
    ++ (treeId, it)
    :: ((λ it', (treeId, it')) <$> seq (S it) (iterations - S it))
    ++ (seq (S treeId) (treeCount - S treeId)
          ≫= λ treeId', (λ it', (treeId', it')) <$> seq 0 iterations).
Proof.
  intros Ht Hi. unfold iterationPairsBefore, iterationPairs.
  assert (∀ n k, k < n → seq 0 n = seq 0 k ++ k :: seq (S k) (n - S k)) as Hseq.
  { intros n k Hk. replace n with (k + S (n - S k)) at 1 by lia.
    by rewrite seq_app. }
  rewrite (Hseq treeCount treeId) by done. rewrite bind_app, bind_cons.
  assert ((λ it', (treeId, it')) <$> seq 0 iterations
          = ((λ it', (treeId, it')) <$> seq 0 it)
            ++ (treeId, it)
            :: ((λ it', (treeId, it')) <$> seq (S it) (iterations - S it))) as ->.
  { rewrite (Hseq iterations it) at 1 by done. by rewrite fmap_app, fmap_cons. }
  by rewrite <-!app_assoc.
Qed.

Lemma iterationPairs_after_ne iterations treeCount treeId it p :
  p ∈ ((λ it', (treeId, it')) <$> seq (S it) (iterations - S it))
      ++ (seq (S treeId) (treeCount - S treeId)
            ≫= λ treeId', (λ it', (treeId', it')) <$> seq 0 iterations) →
  p ≠ (treeId, it).
Proof.
  intros [Hin|Hin]%elem_of_app ->.
  - apply list_elem_of_fmap in Hin as (it' & [= ->] & Hin).
    apply elem_of_seq in Hin. lia.
  - apply list_elem_of_bind in Hin as (treeId' & Hin & Ht).
    apply list_elem_of_fmap in Hin as (it' & [= -> ->] & _).
    apply elem_of_seq in Ht. lia.
Qed.

(** The nested loops as one loop over the pairs. *)
Lemma propagate_pairs ev removedDocId leafDerivatives :
  propagate ev removedDocId leafDerivatives
  = foldl (λ st p, propagateIteration ev removedDocId p.1 p.2 st)
          (replicate (DocCount ev) d_zero, leafDerivatives)
          (iterationPairs (TreeCount ev) (LeavesEstimationIterations ev)).
Proof.
  unfold propagate, iterationPairs. rewrite foldl_bind.
  apply foldl_ext_in. intros st treeId _. by rewrite foldl_fmap.
Qed.

(** The jacobian does not depend on the tensor. *)
Lemma propagateIteration_jacobian ev removedDocId treeId it jacobian leafDerivatives :
  (propagateIteration ev removedDocId treeId it (jacobian, leafDerivatives)).1
  = jacobianStep ev removedDocId jacobian (treeId, it).
Proof.
  unfold propagateIteration, jacobianStep. cbn [fst snd].
  by rewrite (UpdateLeavesDerivativesForTree_buffer _ _ _ _ _ _ _ []).
Qed.

Lemma foldl_propagateIteration_jacobian ev removedDocId jacobian leafDerivatives
    (pairs : list (nat * nat)) :
  (foldl (λ st p, propagateIteration ev removedDocId p.1 p.2 st)
         (jacobian, leafDerivatives) pairs).1
  = foldl (jacobianStep ev removedDocId) jacobian pairs.
Proof.
  revert jacobian leafDerivatives.
  induction pairs as [|[treeId it] pairs IH]; intros jacobian leafDerivatives; [done|].
  cbn [foldl fst snd].
  destruct (propagateIteration ev removedDocId treeId it (jacobian, leafDerivatives))
    as [jacobian' leafDerivatives'] eqn:Hstep.
  rewrite IH. f_equal.
  by rewrite <-(propagateIteration_jacobian _ _ _ _ _ leafDerivatives), Hstep.
Qed.

(** An iteration leaves the other slots of the tensor alone, and keeps its
    shape. *)
Lemma propagateIteration_other ev removedDocId treeId it treeId' it' jacobian
    leafDerivatives :
  (treeId', it') ≠ (treeId, it) →
  ((propagateIteration ev removedDocId treeId' it' (jacobian, leafDerivatives)).2
     !!! treeId) !!! it
  = (leafDerivatives !!! treeId) !!! it.
Proof.
  intros Hne. unfold propagateIteration. cbn [snd].
  rewrite list_lookup_total_alter. case_decide as Heq; [|done].
  destruct Heq as [-> _]. rewrite list_lookup_total_insert_ne; [done|]. congruence.
Qed.

Lemma propagateIteration_shape ev removedDocId treeId it treeId' it' jacobian
    leafDerivatives :
  treeId < length leafDerivatives → it < length (leafDerivatives !!! treeId) →
  let leafDerivatives' :=
    (propagateIteration ev removedDocId treeId' it' (jacobian, leafDerivatives)).2 in
  treeId < length leafDerivatives' ∧ it < length (leafDerivatives' !!! treeId).
Proof.
  intros Ht Hi. unfold propagateIteration. cbn [snd]. cbv zeta.
  rewrite length_alter. split; [done|].
  rewrite list_lookup_total_alter. case_decide as Heq; [|done].
  destruct Heq as [-> _]. by rewrite length_insert.
Qed.

Lemma propagateIteration_entry ev removedDocId treeId it jacobian leafDerivatives :
  treeId < length leafDerivatives → it < length (leafDerivatives !!! treeId) →
  ((propagateIteration ev removedDocId treeId it (jacobian, leafDerivatives)).2
     !!! treeId) !!! it
  = UpdateLeavesDerivativesForTree ev (GetLeafIdToUpdate ev treeId jacobian)
      removedDocId jacobian treeId it [].
Proof.
  intros Ht Hi. unfold propagateIteration. cbn [snd].
  rewrite list_lookup_total_alter_eq by done.
  rewrite list_lookup_total_insert_eq by done.
  apply UpdateLeavesDerivativesForTree_buffer.
Qed.

Lemma foldl_propagateIteration_other ev removedDocId treeId it jacobian leafDerivatives
    (pairs : list (nat * nat)) :
  (∀ p, p ∈ pairs → p ≠ (treeId, it)) →
  ((foldl (λ st p, propagateIteration ev removedDocId p.1 p.2 st)
          (jacobian, leafDerivatives) pairs).2 !!! treeId) !!! it
  = (leafDerivatives !!! treeId) !!! it.
Proof.
  revert jacobian leafDerivatives.
  induction pairs as [|[treeId' it'] pairs IH]; intros jacobian leafDerivatives Hne;
    [done|].
  cbn [foldl fst snd].
  destruct (propagateIteration ev removedDocId treeId' it' (jacobian, leafDerivatives))
    as [jacobian' leafDerivatives'] eqn:Hstep.
  rewrite IH by (intros p Hp; apply Hne; by right).
  replace leafDerivatives'
    with (propagateIteration ev removedDocId treeId' it' (jacobian, leafDerivatives)).2
    by by rewrite Hstep.
  apply propagateIteration_other, Hne. left.
Qed.

Lemma foldl_propagateIteration_shape ev removedDocId treeId it jacobian leafDerivatives
    (pairs : list (nat * nat)) :
  treeId < length leafDerivatives → it < length (leafDerivatives !!! treeId) →
  let leafDerivatives' :=
    (foldl (λ st p, propagateIteration ev removedDocId p.1 p.2 st)
           (jacobian, leafDerivatives) pairs).2 in
  treeId < length leafDerivatives' ∧ it < length (leafDerivatives' !!! treeId).
Proof.
  revert jacobian leafDerivatives.
  induction pairs as [|[treeId' it'] pairs IH]; intros jacobian leafDerivatives Ht Hi;
    [done|].
  cbn [foldl fst snd].
  destruct (propagateIteration ev removedDocId treeId' it' (jacobian, leafDerivatives))
    as [jacobian' leafDerivatives'] eqn:Hstep.
  destruct (propagateIteration_shape ev removedDocId treeId it treeId' it' jacobian
              leafDerivatives Ht Hi) as [Ht' Hi'].
  rewrite Hstep in Ht', Hi'. by apply IH.
Qed.

(** The slot of tree [treeId] and iteration [it] of the tensor is the
    output of [UpdateLeavesDerivativesForTree] on the jacobian that is
    current when the loops reach that iteration. *)
Lemma leafDerivativesOf_entry ev removedDocId treeId it :
  treeId < TreeCount ev → it < LeavesEstimationIterations ev →
  (leafDerivativesOf ev removedDocId !!! treeId) !!! it
  = UpdateLeavesDerivativesForTree ev
      (GetLeafIdToUpdate ev treeId (jacobianBefore ev removedDocId treeId it))
      removedDocId (jacobianBefore ev removedDocId treeId it) treeId it [].
Proof.
  intros Ht Hi. unfold leafDerivativesOf, UpdateLeavesDerivatives, jacobianBefore.
  rewrite propagate_pairs.
  rewrite (iterationPairs_split _ _ treeId it) by done.
  rewrite foldl_app. cbn [foldl].
  destruct (foldl (λ st p, propagateIteration ev removedDocId p.1 p.2 st)
                  (replicate (DocCount ev) d_zero,
                   replicate (TreeCount ev)
                     (replicate (LeavesEstimationIterations ev) []))
                  (iterationPairsBefore (LeavesEstimationIterations ev) treeId it))
    as [jacobian leafDerivatives] eqn:Hbefore.
  assert (jacobian
          = foldl (jacobianStep ev removedDocId) (replicate (DocCount ev) d_zero)
                  (iterationPairsBefore (LeavesEstimationIterations ev) treeId it))
    as <-.
  { by rewrite <-(foldl_propagateIteration_jacobian _ _ _
                   (replicate (TreeCount ev)
                      (replicate (LeavesEstimationIterations ev) []))), Hbefore. }
  destruct (foldl_propagateIteration_shape ev removedDocId treeId it
              (replicate (DocCount ev) d_zero)
              (replicate (TreeCount ev) (replicate (LeavesEstimationIterations ev) []))
              (iterationPairsBefore (LeavesEstimationIterations ev) treeId it))
    as [Ht' Hi'].
  { by rewrite length_replicate. }
  { by rewrite lookup_total_replicate_2, length_replicate. }
  rewrite Hbefore in Ht', Hi'. cbn [fst snd] in *.
  destruct (propagateIteration ev removedDocId treeId it (jacobian, leafDerivatives))
    as [jacobian' leafDerivatives'] eqn:Hstep.
  rewrite foldl_propagateIteration_other
    by apply iterationPairs_after_ne.
  replace leafDerivatives'
    with (propagateIteration ev removedDocId treeId it (jacobian, leafDerivatives)).2
    by by rewrite Hstep.
  by apply propagateIteration_entry.
Qed.

Lemma length_jacobianStep ev removedDocId jacobian p :
  length (jacobianStep ev removedDocId jacobian p) = length jacobian.
Proof. unfold jacobianStep. apply length_updateJacobian. Qed.

Lemma length_jacobianBefore ev removedDocId treeId it :
  length (jacobianBefore ev removedDocId treeId it) = DocCount ev.
Proof.
  unfold jacobianBefore.
  generalize (iterationPairsBefore (LeavesEstimationIterations ev) treeId it).
  intros pairs.
  assert (∀ jacobian, length (foldl (jacobianStep ev removedDocId) jacobian pairs)
                      = length jacobian) as Hlen.
  { induction pairs as [|p pairs IH]; intros jacobian; [done|].
    cbn [foldl]. by rewrite IH, length_jacobianStep. }
  by rewrite Hlen, length_replicate.
Qed.

End Propagate.

(** ** From leaf derivatives to importances *)

Section Importances.
Context {D : Type} `{!DoubleOps D} {sorter : SortAlgorithm} {collaborators : Collaborators D}.

Implicit Types (ev : TDocumentImportancesEvaluator D).
Implicit Types (leafDerivatives : list (list (list D))).
Implicit Types (leafIndices : list (list nat)).

(** One pass [v[i] += g i] over all [i < n]. *)
Lemma foldl_add_at_seq (g : nat → D) (v : list D) (n i : nat) :
  i < n → i < length v →
  foldl (λ v docId, add_at docId (g docId) v) v (seq 0 n) !!! i = v !!! i ⊕ g i.
Proof.
  intros Hn Hv. unfold add_at.
  rewrite (foldl_alter_ops (λ docId, docId) (λ docId y, y ⊕ g docId)).
  apply (apply_ops_lookup_total_in _ _ i (λ y, y ⊕ g i)); [| |done].
  - rewrite ops_indices_id. apply NoDup_seq.
  - apply (list_elem_of_fmap_2 (λ docId, (docId, λ y, y ⊕ g docId))).
    apply elem_of_seq. lia.
Qed.

Lemma length_foldl_add_at {B} (idx : B → nat) (g : B → D) (v : list D) (l : list B) :
  length (foldl (λ v x, add_at (idx x) (g x) v) v l) = length v.
Proof.
  revert v. induction l as [|x l IH]; intros v; [done|].
  cbn [foldl]. rewrite IH. apply length_alter.
Qed.

(** A sequence of such passes accumulates, slot by slot, in the order of
    the passes. *)
Lemma foldl_passes_lookup {B} (g : B → nat → D) (passes : list B) (v : list D)
    (n i : nat) :
  i < n → i < length v →
  foldl (λ v p, foldl (λ v docId, add_at docId (g p docId) v) v (seq 0 n)) v passes
    !!! i
  = foldl (λ y p, y ⊕ g p i) (v !!! i) passes.
Proof.
  intros Hn. revert v. induction passes as [|p passes IH]; intros v Hv; [done|].
  cbn [foldl]. rewrite IH by by rewrite length_foldl_add_at.
  by rewrite foldl_add_at_seq.
Qed.

Lemma predictedDerivativesOf_lookup ev leafDerivatives leafIndices docCount docId :
  docId < docCount →
  predictedDerivativesOf ev leafDerivatives leafIndices docCount !!! docId
  = d_sum ((λ p, ((leafDerivatives !!! p.1) !!! p.2)
                   !!! ((leafIndices !!! p.1) !!! docId))
             <$> iterationPairs (TreeCount ev) (LeavesEstimationIterations ev)).
Proof.
  intros Hlt. unfold predictedDerivativesOf.
  trans (foldl (λ v p,
                  foldl (λ v docId,
                           add_at docId
                             (((leafDerivatives !!! p.1) !!! p.2)
                                !!! ((leafIndices !!! p.1) !!! docId)) v)
                        v (seq 0 docCount))
               (replicate docCount d_zero)
               (iterationPairs (TreeCount ev) (LeavesEstimationIterations ev))
         !!! docId).
  - f_equal. unfold iterationPairs. rewrite foldl_bind.
    apply foldl_ext_in. intros v treeId _. by rewrite foldl_fmap.
  - rewrite (foldl_passes_lookup
               (λ p docId, ((leafDerivatives !!! p.1) !!! p.2)
                             !!! ((leafIndices !!! p.1) !!! docId)))
      by by rewrite ?length_replicate.
    rewrite lookup_total_replicate_2 by done. apply foldl_add_d_sum.
Qed.

Lemma GetDocumentImportancesForOneTrainDoc_lookup ev leafDerivatives leafIndices
    (documentImportance : list D) docId :
  docId < length documentImportance →
  GetDocumentImportancesForOneTrainDoc ev leafDerivatives leafIndices
    documentImportance !!! docId
  = FinalFirstDerivatives ev !!! docId
    ⊗ predictedDerivativesOf ev leafDerivatives leafIndices
        (length documentImportance) !!! docId.
Proof.
  intros Hlt. unfold GetDocumentImportancesForOneTrainDoc. cbv zeta.
  set (h := λ docId, FinalFirstDerivatives ev !!! docId
                     ⊗ predictedDerivativesOf ev leafDerivatives leafIndices
                         (length documentImportance) !!! docId).
  trans (foldl (λ v docId, alter (λ _, h docId) docId v) documentImportance
               (seq 0 (length documentImportance)) !!! docId).
  - f_equal. apply foldl_ext_in. intros v i _. apply list_insert_alter.
  - rewrite (foldl_alter_ops (λ docId, docId) (λ docId _, h docId)).
    apply (apply_ops_lookup_total_in _ _ docId (λ _, h docId)); [| |done].
    + rewrite ops_indices_id. apply NoDup_seq.
    + apply (list_elem_of_fmap_2 (λ docId, (docId, λ _ : D, h docId))).
      apply elem_of_seq. lia.
Qed.

(** Row [docId] of the matrix is the output of the task of [docId]. *)
Lemma GetDocumentImportances_row ev (pool : TPool) docId :
  docId < DocCount ev →
  let ev' := (GetDocumentImportances ev pool).1 in
  (GetDocumentImportances ev pool).2 !!! docId
  = importancesRow ev'
      ((λ treeId, BuildIndicesForBinTree pool treeId) <$> seq 0 (TreeCount ev))
      docId (replicate (GetDocCount pool) d_zero).
Proof.
  intros Hlt. unfold GetDocumentImportances. cbv zeta. cbn [fst snd].
  set (ev' := UpdateFinalFirstDerivatives ev _ pool).
  set (leafIndices := _ <$> seq 0 (TreeCount ev)).
  rewrite (foldl_alter_ops (λ docId, docId)
             (λ docId, importancesRow ev' leafIndices docId)).
  rewrite (apply_ops_lookup_total_in _ _ docId (importancesRow ev' leafIndices docId)).
  - by rewrite lookup_total_replicate_2.
  - rewrite ops_indices_id. apply NoDup_seq.
  - apply (list_elem_of_fmap_2 (λ docId, (docId, importancesRow ev' leafIndices docId))).
    apply elem_of_seq. unfold ev'. cbn. lia.
  - rewrite length_replicate. unfold ev'. by cbn.
Qed.

Lemma iterationPairs_elem_of treeCount iterations treeId it :
  (treeId, it) ∈ iterationPairs treeCount iterations ↔
  treeId < treeCount ∧ it < iterations.
Proof.
  unfold iterationPairs. rewrite list_elem_of_bind. split.
  - intros (treeId' & Hin & Ht). apply list_elem_of_fmap in Hin as (it' & [= -> ->] & Hi).
    apply elem_of_seq in Ht, Hi. lia.
  - intros [Ht Hi]. exists treeId. split; [|apply elem_of_seq; lia].
    apply (list_elem_of_fmap_2 (λ it, (treeId, it))). apply elem_of_seq. lia.
Qed.

Lemma iterationPairs_no_iterations treeCount : iterationPairs treeCount 0 = [].
Proof.
  destruct (iterationPairs treeCount 0) as [|[treeId it] pairs] eqn:Heq; [done|].
  assert ((treeId, it) ∈ iterationPairs treeCount 0) as Hin by (rewrite Heq; left).
  apply iterationPairs_elem_of in Hin. lia.
Qed.

End Importances.

(** ** The order of the selected leaves does not matter *)

Section Equivalence.
Context {D : Type} `{!DoubleOps D} {sorter : SortAlgorithm} {collaborators : Collaborators D}.

Hypothesis Sort_Permutation : ∀ cmp l, Sort cmp l ≡ₚ l.

Implicit Types (ev : TDocumentImportancesEvaluator D).
Implicit Types (jacobian leafDerivativesRef : list D).
Implicit Types (leafIdToUpdate : list nat).

Lemma UpdateLeavesDerivativesForTree_Permutation ev leafIdToUpdate leafIdToUpdate'
    removedDocId jacobian treeId it (leafDerivatives : list D) :
  NoDup leafIdToUpdate → leafIdToUpdate ≡ₚ leafIdToUpdate' →
  UpdateLeavesDerivativesForTree ev leafIdToUpdate removedDocId jacobian treeId it
    leafDerivatives
  = UpdateLeavesDerivativesForTree ev leafIdToUpdate' removedDocId jacobian treeId it
      leafDerivatives.
Proof.
  intros Hnd Hperm. rewrite !UpdateLeavesDerivativesForTree_unfold. cbv zeta.
  rewrite (apply_ops_Permutation
             (leafOps ev removedDocId jacobian treeId it leafIdToUpdate)
             (leafOps ev removedDocId jacobian treeId it leafIdToUpdate')).
  - rewrite (bool_decide_ext _ (LeafIndices (TreesStatistics ev !!! treeId)
                                  !!! removedDocId ∈ leafIdToUpdate')); [done|].
    by rewrite Hperm.
  - by rewrite leafOps_indices.
  - unfold leafOps. by rewrite Hperm.
Qed.

Lemma updateJacobian_Permutation ev removedDocId treeId leafIdToUpdate leafIdToUpdate'
    leafDerivativesRef jacobian :
  TreeWellFormed ev treeId → NoDup leafIdToUpdate →
  (∀ leafId, leafId ∈ leafIdToUpdate →
             leafId < LeafCount (TreesStatistics ev !!! treeId)) →
  leafIdToUpdate ≡ₚ leafIdToUpdate' →
  updateJacobian ev removedDocId treeId leafIdToUpdate leafDerivativesRef jacobian
  = updateJacobian ev removedDocId treeId leafIdToUpdate' leafDerivativesRef jacobian.
Proof.
  intros Hwf Hnd Hrange Hperm. rewrite !updateJacobian_unfold. cbv zeta.
  rewrite (apply_ops_Permutation
             (jacobianOps ev treeId leafIdToUpdate leafDerivativesRef)
             (jacobianOps ev treeId leafIdToUpdate' leafDerivativesRef)).
  - rewrite (bool_decide_ext _ (LeafIndices (TreesStatistics ev !!! treeId)
                                  !!! removedDocId ∈ leafIdToUpdate')); [done|].
    by rewrite Hperm.
  - by apply jacobianOps_NoDup.
  - by apply jacobianOps_Permutation.
Qed.

(** With [TopSize] at least the leaf count, an iteration under
    [TopKLeaves] does what it does under [AllPoints]. *)
Lemma propagateIteration_full ev topSize updateMethod removedDocId treeId it st :
  TreeWellFormed ev treeId → leafCountOf ev treeId ≤ topSize →
  UpdateType updateMethod = AllPoints →
  propagateIteration (set_UpdateMethod (topKLeaves topSize) ev) removedDocId treeId it st
  = propagateIteration (set_UpdateMethod updateMethod ev) removedDocId treeId it st.
Proof.
  intros Hwf Hk Hall. destruct st as [jacobian leafDerivatives].
  unfold propagateIteration.
  set (selected := GetLeafIdToUpdate (set_UpdateMethod (topKLeaves topSize) ev)
                     treeId jacobian).
  set (all := GetLeafIdToUpdate (set_UpdateMethod updateMethod ev) treeId jacobian).
  assert (selected ≡ₚ all) as Hperm.
  { unfold selected, all.
    rewrite (GetLeafIdToUpdate_AllPoints (set_UpdateMethod updateMethod ev)) by done.
    change (leafCountOf (set_UpdateMethod updateMethod ev) treeId)
      with (leafCountOf (set_UpdateMethod (topKLeaves topSize) ev) treeId).
    by apply GetLeafIdToUpdate_full. }
  assert (NoDup selected) as Hnd by by apply GetLeafIdToUpdate_NoDup.
  assert (∀ leafId, leafId ∈ selected →
                    leafId < LeafCount (TreesStatistics ev !!! treeId)) as Hrange.
  { intros leafId Hin. rewrite <-(TreeWellFormed_leafCountOf ev treeId) by done.
    by apply (GetLeafIdToUpdate_lt Sort_Permutation) in Hin. }
  change (UpdateLeavesDerivativesForTree (set_UpdateMethod (topKLeaves topSize) ev))
    with (UpdateLeavesDerivativesForTree ev).
  change (UpdateLeavesDerivativesForTree (set_UpdateMethod updateMethod ev))
    with (UpdateLeavesDerivativesForTree ev).
  change (updateJacobian (set_UpdateMethod (topKLeaves topSize) ev))
    with (updateJacobian ev).
  change (updateJacobian (set_UpdateMethod updateMethod ev)) with (updateJacobian ev).
  rewrite (UpdateLeavesDerivativesForTree_Permutation ev selected all) by done.
  by rewrite (updateJacobian_Permutation ev removedDocId treeId selected all).
Qed.

Lemma propagate_full ev topSize updateMethod removedDocId
    (leafDerivatives : list (list (list D))) :
  WellFormed ev →
  (∀ treeId, treeId < TreeCount ev → leafCountOf ev treeId ≤ topSize) →
  UpdateType updateMethod = AllPoints →
  propagate (set_UpdateMethod (topKLeaves topSize) ev) removedDocId leafDerivatives
  = propagate (set_UpdateMethod updateMethod ev) removedDocId leafDerivatives.
Proof.
  intros Hwf Hk Hall. unfold propagate. cbn [TreeCount DocCount set_UpdateMethod
    LeavesEstimationIterations].
  apply foldl_ext_in. intros st treeId Ht%elem_of_seq.
  apply foldl_ext_in. intros st' it _.
  apply propagateIteration_full; [|apply Hk; lia|done].
  apply WellFormed_tree; [done|lia].
Qed.

End Equivalence.

(** ** The guarded reading of the divisions *)

Section Guarded.
Context {D : Type} `{!DoubleOps D}.

Implicit Types (ev : TDocumentImportancesEvaluator D).
Implicit Types (jacobian : list D).
Implicit Types (leafIdToUpdate : list nat).

Lemma checked_div_Some (x y z : D) :
  checked_div x y = Some z ↔ d_is_zero y = false ∧ z = x ⊘ y.
Proof.
  unfold checked_div. destruct (d_is_zero y); split.
  - done.
  - by intros [? _].
  - by intros [= <-].
  - by intros [_ ->].
Qed.

Lemma updateLeaf_checked_Some ev removedDocId jacobian treeId it st leafId st' :
  updateLeaf_checked ev removedDocId jacobian treeId it st leafId = Some st' ↔
  d_is_zero ((FormulaDenominators (TreesStatistics ev !!! treeId) !!! it) !!! leafId)
  = false
  ∧ st' = updateLeaf ev removedDocId jacobian treeId it st leafId.
Proof.
  unfold updateLeaf_checked, updateLeaf, checked_div. cbv zeta.
  destruct st as [leafDerivativesRef isRemovedDocUpdated].
  destruct (d_is_zero _); cbn; split.
  - done.
  - by intros [? _].
  - by intros [= <-].
  - by intros [_ ->].
Qed.

Lemma foldl_updateLeaf_checked_None ev removedDocId jacobian treeId it leafIdToUpdate :
  foldl (λ st leafId,
           st ≫= λ st, updateLeaf_checked ev removedDocId jacobian treeId it st leafId)
        None leafIdToUpdate
  = None.
Proof. by induction leafIdToUpdate. Qed.

Lemma foldl_updateLeaf_checked_Some ev removedDocId jacobian treeId it leafIdToUpdate
    st st' :
  foldl (λ st leafId,
           st ≫= λ st, updateLeaf_checked ev removedDocId jacobian treeId it st leafId)
        (Some st) leafIdToUpdate
  = Some st' ↔
  Forall (λ leafId,
            d_is_zero ((FormulaDenominators (TreesStatistics ev !!! treeId) !!! it)
                         !!! leafId) = false)
         leafIdToUpdate
  ∧ st' = foldl (updateLeaf ev removedDocId jacobian treeId it) st leafIdToUpdate.
Proof.
  revert st. induction leafIdToUpdate as [|leafId l IH]; intros st.
  - cbn. split; [intros [= ->]; by split|by intros [_ ->]].
  - cbn [foldl]. rewrite Forall_cons. cbn [mbind option_bind].
    destruct (updateLeaf_checked ev removedDocId jacobian treeId it st leafId)
      as [st1|] eqn:Hstep.
    + apply updateLeaf_checked_Some in Hstep as [Hnz ->].
      rewrite IH. split; [intros [? ->]|intros [[_ ?] ->]]; by split_and!.
    + rewrite foldl_updateLeaf_checked_None. split; [done|].
      intros [[Hnz _] _].
      assert (updateLeaf_checked ev removedDocId jacobian treeId it st leafId
              = Some (updateLeaf ev removedDocId jacobian treeId it st leafId)) as Hs
        by by apply updateLeaf_checked_Some.
      congruence.
Qed.

Lemma correctRemovedDocLeaf_checked_Some ev removedDocId jacobian treeId it
    (leafDerivativesRef leafDerivativesRef' : list D) :
  correctRemovedDocLeaf_checked ev removedDocId jacobian treeId it leafDerivativesRef
  = Some leafDerivativesRef' ↔
  d_is_zero ((FormulaDenominators (TreesStatistics ev !!! treeId) !!! it)
               !!! (LeafIndices (TreesStatistics ev !!! treeId) !!! removedDocId))
  = false
  ∧ leafDerivativesRef'
    = correctRemovedDocLeaf ev removedDocId jacobian treeId it leafDerivativesRef.
Proof.
  unfold correctRemovedDocLeaf_checked, correctRemovedDocLeaf, checked_div. cbv zeta.
  destruct (d_is_zero _); cbn; split.
  - done.
  - by intros [? _].
  - by intros [= <-].
  - by intros [_ ->].
Qed.

End Guarded.

(** ** Insertion sort meets what is assumed of [Sort] *)

Section InsertionSort.
Implicit Types (cmp : nat → nat → bool) (l : list nat).

Lemma insert_by_Permutation cmp x l : insert_by cmp x l ≡ₚ x :: l.
Proof.
  induction l as [|y l IH]; [done|]. cbn [insert_by].
  destruct (cmp y x); [|done]. rewrite IH. apply Permutation_swap.
Qed.

Lemma insertion_sort_Permutation cmp l : insertion_sort cmp l ≡ₚ l.
Proof.
  unfold insertion_sort. induction l as [|x l IH]; [done|].
  cbn [foldr]. by rewrite insert_by_Permutation, IH.
Qed.

Lemma StrictWeakOrderOn_asymmetric cmp l a b :
  StrictWeakOrderOn cmp l → a ∈ l → b ∈ l → cmp a b = true → cmp b a = false.
Proof.
  intros (Hirr & Htrans & _) Ha Hb Hab.
  destruct (cmp b a) eqn:Hba; [|done].
  rewrite <-(Hirr a Ha). symmetry. by apply (Htrans a b a).
Qed.

Lemma StrictWeakOrderOn_negatively_transitive cmp l a b c :
  StrictWeakOrderOn cmp l → a ∈ l → b ∈ l → c ∈ l →
  cmp a b = false → cmp b c = false → cmp a c = false.
Proof.
  intros Hswo Ha Hb Hc Hab Hbc. pose proof Hswo as (Hirr & Htrans & Hinc).
  destruct (cmp a c) eqn:Hac; [|done].
  destruct (cmp b a) eqn:Hba.
  { rewrite <-Hbc. symmetry. by apply (Htrans b a c). }
  destruct (cmp c b) eqn:Hcb.
  { rewrite <-Hab. symmetry. by apply (Htrans a c b). }
  destruct (Hinc a b c) as [Hac' _]; try done. congruence.
Qed.

Lemma insert_by_StronglySorted cmp l0 x l :
  StrictWeakOrderOn cmp l0 → x ∈ l0 → l ⊆ l0 →
  StronglySorted (λ a b, cmp b a = false) l →
  StronglySorted (λ a b, cmp b a = false) (insert_by cmp x l).
Proof.
  intros Hswo Hx. induction l as [|y l IH]; intros Hsub Hs.
  - repeat constructor.
  - apply StronglySorted_inv in Hs as [Hs Hy].
    assert (y ∈ l0) as Hy0 by (apply Hsub; left).
    assert (l ⊆ l0) as Hsub' by (intros z Hz; apply Hsub; by right).
    cbn [insert_by]. destruct (cmp y x) eqn:Hyx.
    + constructor; [by apply IH|].
      rewrite insert_by_Permutation. constructor; [|done].
      by apply (StrictWeakOrderOn_asymmetric cmp l0).
    + constructor; [by constructor|]. constructor; [done|].
      apply Forall_forall. intros z Hz.
      rewrite Forall_forall in Hy.
      apply (StrictWeakOrderOn_negatively_transitive cmp l0 z y x); auto.
Qed.

Lemma insertion_sort_StronglySorted cmp l :
  StrictWeakOrderOn cmp l →
  StronglySorted (λ a b, cmp b a = false) (insertion_sort cmp l).
Proof.
  intros Hswo.
  assert (∀ l', l' ⊆ l →
                StronglySorted (λ a b, cmp b a = false) (insertion_sort cmp l')) as H.
  { induction l' as [|x l' IH]; intros Hsub; [constructor|].
    unfold insertion_sort. cbn [foldr].
    apply (insert_by_StronglySorted cmp l); [done|apply Hsub; left| |].
    - intros z Hz. apply Hsub. right.
      by rewrite <-(insertion_sort_Permutation cmp l').
    - apply IH. intros z Hz. apply Hsub. by right. }
  by apply H.
Qed.

End InsertionSort.

(** * The properties *)

Section Properties.
Context {D : Type} `{!DoubleOps D} {sorter : SortAlgorithm} {collaborators : Collaborators D}.

Hypothesis Sort_Permutation : ∀ cmp l, Sort cmp l ≡ₚ l.
Hypothesis Sort_StronglySorted : ∀ cmp l,
    StrictWeakOrderOn cmp l → StronglySorted (λ a b, cmp b a = false) (Sort cmp l).

Implicit Types (ev : TDocumentImportancesEvaluator D).

(** C1.  The score at row [trainDocId], column [docId] of the matrix is
    [FinalFirstDerivatives[docId]] times the predicted derivative of
    [docId], which is the sum, over the trees and the leaf estimation
    iterations in the order of the loops, of the derivative that the task
    of [trainDocId] computed for the leaf of [docId]. *)
Theorem importance_is_derivative_times_prediction ev (pool : TPool) trainDocId docId :
  trainDocId < DocCount ev → docId < GetDocCount pool →
  let ev' := (GetDocumentImportances ev pool).1 in
  let leafDerivatives := leafDerivativesOf ev' trainDocId in
  let predictedDerivative :=
    d_sum ((λ p, ((leafDerivatives !!! p.1) !!! p.2)
                   !!! (BuildIndicesForBinTree pool p.1 !!! docId))
             <$> iterationPairs (TreeCount ev') (LeavesEstimationIterations ev')) in
  ((GetDocumentImportances ev pool).2 !!! trainDocId) !!! docId
  = FinalFirstDerivatives ev' !!! docId ⊗ predictedDerivative.
Proof.
  intros Ht He ev' leafDerivatives predictedDerivative.
  subst predictedDerivative leafDerivatives.
  rewrite GetDocumentImportances_row by done. fold ev'.
  unfold importancesRow.
  rewrite GetDocumentImportancesForOneTrainDoc_lookup by by rewrite length_replicate.
  rewrite length_replicate, predictedDerivativesOf_lookup by done.
  f_equal. f_equal. apply list_fmap_ext. intros i [treeId it] Hp.
  apply list_elem_of_lookup_2, iterationPairs_elem_of in Hp as [Hp _].
  cbn [fst snd]. change (TreeCount ev') with (TreeCount ev) in Hp.
  rewrite (list_lookup_total_fmap (λ treeId, BuildIndicesForBinTree pool treeId))
    by by rewrite length_seq.
  by rewrite lookup_total_seq_lt.
Qed.

(** C2.  In every iteration of every tree, the derivative of a selected
    leaf [leafId] is the sum over the documents of [LeavesDocId[leafId]] of
    [FormulaNumeratorMultiplier[doc] * jacobian[doc]], plus
    [FormulaNumeratorAdding[removedDocId]] when [leafId] is the leaf of the
    removed document, times [-LearningRate / FormulaDenominators[leafId]]. *)
Theorem selected_leaf_derivative ev removedDocId treeId it leafId :
  WellFormed ev → treeId < TreeCount ev → it < LeavesEstimationIterations ev →
  let treeStatistics := TreesStatistics ev !!! treeId in
  let jacobian := jacobianBefore ev removedDocId treeId it in
  leafId ∈ GetLeafIdToUpdate ev treeId jacobian →
  ((leafDerivativesOf ev removedDocId !!! treeId) !!! it) !!! leafId
  = (if decide (leafId = LeafIndices treeStatistics !!! removedDocId)
     then bucketSum ev jacobian treeId it leafId
          ⊕ (FormulaNumeratorAdding treeStatistics !!! it) !!! removedDocId
     else bucketSum ev jacobian treeId it leafId)
    ⊗ leafScale ev treeId it leafId.
Proof.
  intros Hwf Ht Hi ts jacobian Hin. subst ts.
  rewrite leafDerivativesOf_entry by done. fold jacobian.
  apply UpdateLeavesDerivativesForTree_selected; [|done|].
  - by apply GetLeafIdToUpdate_NoDup.
  - rewrite <-TreeWellFormed_leafCountOf by by apply WellFormed_tree.
    by apply (GetLeafIdToUpdate_lt Sort_Permutation) in Hin.
Qed.

(** C3.  In every iteration of every tree in which the leaf of the removed
    document is not selected, that leaf still gets a derivative: the buffer
    entry, which starts at zero, receives
    [jacobian[removedDocId] * FormulaNumeratorMultiplier[removedDocId]], then
    [FormulaNumeratorAdding[removedDocId]], and is scaled by [-LearningRate /
    FormulaDenominators[leaf]]; when adding the first term to zero returns
    that term, this is [(jacobian[r] * multiplier[r] + adding[r])] scaled. *)
Theorem removed_leaf_correction ev removedDocId treeId it :
  WellFormed ev → removedDocId < DocCount ev →
  treeId < TreeCount ev → it < LeavesEstimationIterations ev →
  let treeStatistics := TreesStatistics ev !!! treeId in
  let jacobian := jacobianBefore ev removedDocId treeId it in
  let removedDocLeafId := LeafIndices treeStatistics !!! removedDocId in
  let product :=
    jacobian !!! removedDocId
    ⊗ (FormulaNumeratorMultiplier treeStatistics !!! it) !!! removedDocId in
  let adding := (FormulaNumeratorAdding treeStatistics !!! it) !!! removedDocId in
  let derivative :=
    ((leafDerivativesOf ev removedDocId !!! treeId) !!! it) !!! removedDocLeafId in
  removedDocLeafId ∉ GetLeafIdToUpdate ev treeId jacobian →
  derivative = (d_zero ⊕ product ⊕ adding) ⊗ leafScale ev treeId it removedDocLeafId
  ∧ (d_zero ⊕ product = product →
     derivative = (product ⊕ adding) ⊗ leafScale ev treeId it removedDocLeafId).
Proof.
  intros Hwf Hr Ht Hi ts jacobian rl product adding derivative Hsel.
  assert (derivative = (d_zero ⊕ product ⊕ adding) ⊗ leafScale ev treeId it rl) as Heq.
  { subst derivative. rewrite leafDerivativesOf_entry by done. fold jacobian.
    apply UpdateLeavesDerivativesForTree_removed; [done|].
    apply TreeWellFormed_leaf_lt; [by apply WellFormed_tree|done]. }
  split; [done|]. intros Hzero. by rewrite Heq, Hzero.
Qed.

(** C4.  In every iteration of every tree, the pass of the loop body turns
    the jacobian it starts from into one that differs as follows: for every
    selected leaf, the derivative of the leaf is added to the entry of every
    document of the bucket of the leaf; when the leaf of the removed
    document is not selected, the derivative of that leaf is added to the
    entry of the removed document; and no other entry changes. *)
Theorem jacobian_update ev removedDocId treeId it
    (leafDerivatives : list (list (list D))) :
  WellFormed ev → removedDocId < DocCount ev →
  treeId < TreeCount ev → it < LeavesEstimationIterations ev →
  let treeStatistics := TreesStatistics ev !!! treeId in
  let jacobian := jacobianBefore ev removedDocId treeId it in
  let selected := GetLeafIdToUpdate ev treeId jacobian in
  let derivatives := (leafDerivativesOf ev removedDocId !!! treeId) !!! it in
  let removedDocLeafId := LeafIndices treeStatistics !!! removedDocId in
  let jacobian' :=
    (propagateIteration ev removedDocId treeId it (jacobian, leafDerivatives)).1 in
  (∀ leafId docId,
     leafId ∈ selected → docId ∈ LeavesDocId treeStatistics !!! leafId →
     jacobian' !!! docId = jacobian !!! docId ⊕ derivatives !!! leafId)
  ∧ (removedDocLeafId ∉ selected →
     jacobian' !!! removedDocId
     = jacobian !!! removedDocId ⊕ derivatives !!! removedDocLeafId)
  ∧ (∀ docId,
       docId < DocCount ev → LeafIndices treeStatistics !!! docId ∉ selected →
       docId ≠ removedDocId → jacobian' !!! docId = jacobian !!! docId).
Proof.
  intros Hwf Hr Ht Hi ts jacobian selected derivatives rl jacobian'.
  pose proof (WellFormed_tree ev treeId Hwf Ht) as Htree.
  assert (NoDup selected) as Hnd by by apply GetLeafIdToUpdate_NoDup.
  assert (∀ leafId, leafId ∈ selected → leafId < LeafCount ts) as Hrange.
  { intros leafId Hin. subst ts. rewrite <-TreeWellFormed_leafCountOf by done.
    by apply (GetLeafIdToUpdate_lt Sort_Permutation) in Hin. }
  assert (∀ docId, docId < DocCount ev →
            jacobian' !!! docId
            = if decide (LeafIndices ts !!! docId ∈ selected)
              then jacobian !!! docId ⊕ derivatives !!! (LeafIndices ts !!! docId)
              else if decide (docId = removedDocId)
                   then jacobian !!! removedDocId ⊕ derivatives !!! rl
                   else jacobian !!! docId) as Hlookup.
  { intros docId Hdoc. subst jacobian' derivatives.
    rewrite propagateIteration_jacobian.
    rewrite leafDerivativesOf_entry by done. unfold jacobianStep. cbn [fst snd].
    apply updateJacobian_lookup; try done. apply length_jacobianBefore. }
  split_and!.
  - intros leafId docId Hsel Hin.
    apply (TreeWellFormed_bucket_elem ev treeId) in Hin as [Hdoc Hleaf];
      [|done|by apply Hrange].
    rewrite Hlookup by done. fold ts in Hleaf. rewrite Hleaf.
    by rewrite decide_True.
  - intros Hsel. rewrite Hlookup by done. fold rl.
    rewrite decide_False by done. by rewrite decide_True.
  - intros docId Hdoc Hsel Hne. rewrite Hlookup by done.
    by rewrite !decide_False.
Qed.

(** C5.  Under [TopKLeaves] the selection is the first
    [min(TopSize, leafCount)] leaves of a ranking of all [leafCount =
    2^depth] leaves in which no leaf is followed by one of greater mass,
    the mass of a leaf being the sum of [|jacobian[doc]|] over the documents
    assigned to it; so it has [min(TopSize, leafCount)] elements. *)
Theorem top_k_selection ev treeId (jacobian : list D) :
  UpdateType (UpdateMethod ev) = TopKLeaves →
  TreeSizes ev !!! treeId < 32 →
  let leafCount := 2 ^ (TreeSizes ev !!! treeId) in
  let mass := leafMass ev jacobian treeId in
  StrictWeakOrderOn (λ a b, d_gt (mass a) (mass b)) (seq 0 leafCount) →
  ∃ ranked,
    ranked ≡ₚ seq 0 leafCount
    ∧ StronglySorted (λ a b, d_gt (mass b) (mass a) = false) ranked
    ∧ GetLeafIdToUpdate ev treeId jacobian
      = take (TopSize (UpdateMethod ev) `min` leafCount) ranked
    ∧ length (GetLeafIdToUpdate ev treeId jacobian)
      = TopSize (UpdateMethod ev) `min` leafCount.
Proof.
  intros Hty Hdepth leafCount mass Hswo.
  pose proof (leafCountOf_depth ev treeId Hdepth) as Hcount. fold leafCount in Hcount.
  set (cmp := λ a b, d_gt (leafJacobiansOf ev treeId jacobian !!! a)
                          (leafJacobiansOf ev treeId jacobian !!! b)).
  assert (∀ a b, a ∈ seq 0 leafCount → b ∈ seq 0 leafCount →
                 d_gt (mass a) (mass b) = cmp a b) as Hcmp.
  { intros a b Ha%elem_of_seq Hb%elem_of_seq. unfold cmp, mass.
    rewrite !leafJacobiansOf_lookup; [done|lia..]. }
  exists (Sort cmp (seq 0 leafCount)). split_and!.
  - apply Sort_Permutation.
  - apply (StronglySorted_ext_in (λ a b, cmp b a = false)).
    + intros a b Ha Hb. rewrite Sort_Permutation in Ha, Hb. by rewrite Hcmp.
    + apply Sort_StronglySorted. by apply (StrictWeakOrderOn_ext _ _ _ Hcmp).
  - unfold GetLeafIdToUpdate. by rewrite Hty, Hcount.
  - unfold GetLeafIdToUpdate. rewrite Hty, Hcount.
    rewrite length_take, Sort_Permutation, length_seq. lia.
Qed.

(** C6.  With [TopSize] at least (in particular, equal to) the leaf count
    of every tree, the matrix computed under [TopKLeaves] is the matrix
    computed under [AllPoints]. *)
Theorem top_k_full_width_is_all_points ev (pool : TPool) topSize updateMethod :
  WellFormed ev →
  (∀ treeId, treeId < TreeCount ev → leafCountOf ev treeId ≤ topSize) →
  UpdateType updateMethod = AllPoints →
  (GetDocumentImportances (set_UpdateMethod (topKLeaves topSize) ev) pool).2
  = (GetDocumentImportances (set_UpdateMethod updateMethod ev) pool).2.
Proof.
  intros Hwf Hk Hall. unfold GetDocumentImportances. cbv zeta. cbn [snd].
  apply foldl_ext_in. intros documentImportances docId _. f_equal.
  unfold importancesRow, UpdateLeavesDerivatives. cbv zeta.
  set (leafIndices := _ <$> seq 0 _).
  set (ev' := UpdateFinalFirstDerivatives ev leafIndices pool).
  change (UpdateFinalFirstDerivatives (set_UpdateMethod (topKLeaves topSize) ev)
            leafIndices pool)
    with (set_UpdateMethod (topKLeaves topSize) ev').
  change (UpdateFinalFirstDerivatives (set_UpdateMethod updateMethod ev)
            leafIndices pool)
    with (set_UpdateMethod updateMethod ev').
  rewrite (propagate_full Sort_Permutation ev' topSize updateMethod); done.
Qed.

(** The matrix has one row per training document and one column per
    document of the pool. *)
Lemma length_GetDocumentImportances ev (pool : TPool) :
  length (GetDocumentImportances ev pool).2 = DocCount ev.
Proof.
  unfold GetDocumentImportances. cbv zeta. cbn [snd].
  set (ev' := UpdateFinalFirstDerivatives ev _ pool).
  rewrite (foldl_alter_ops (λ docId, docId) (λ docId, importancesRow ev' _ docId)).
  by rewrite length_apply_ops, length_replicate.
Qed.

Lemma length_GetDocumentImportancesForOneTrainDoc ev
    (leafDerivatives : list (list (list D))) (leafIndices : list (list nat))
    (documentImportance : list D) :
  length (GetDocumentImportancesForOneTrainDoc ev leafDerivatives leafIndices
            documentImportance)
  = length documentImportance.
Proof.
  unfold GetDocumentImportancesForOneTrainDoc. cbv zeta.
  generalize (seq 0 (length documentImportance)).
  generalize (predictedDerivativesOf ev leafDerivatives leafIndices
                (length documentImportance)).
  intros predicted l. revert documentImportance.
  induction l as [|docId l IH]; intros documentImportance; [done|].
  cbn [foldl]. by rewrite IH, length_insert.
Qed.

Lemma fmap_seq_constant {A} (f : nat → A) (c : A) (n : nat) :
  (∀ i, i < n → f i = c) → f <$> seq 0 n = replicate n c.
Proof.
  intros Hf. apply (list_eq_same_length _ _ n);
    [by rewrite length_replicate|by rewrite length_fmap, length_seq|].
  intros i x y Hi Hx Hy. apply lookup_replicate in Hy as [-> _].
  rewrite list_lookup_fmap, lookup_seq_lt in Hx by done.
  injection Hx as <-. by apply Hf.
Qed.

(** C7.  Without leaf estimation iterations every entry of the
    matrix is [FinalFirstDerivatives[docId]] times the empty sum, which is
    [0.0].  The matrix is the zero matrix when these products with zero are
    zero; they are not for a negative derivative (the product is [-0.0]) nor
    for an infinite or NaN one (the product is NaN). *)
Theorem no_iterations_zero_matrix ev (pool : TPool) :
  LeavesEstimationIterations ev = 0 →
  let ev' := (GetDocumentImportances ev pool).1 in
  (GetDocumentImportances ev pool).2
  = replicate (DocCount ev)
      ((λ docId, FinalFirstDerivatives ev' !!! docId ⊗ d_zero)
         <$> seq 0 (GetDocCount pool))
  ∧ ((∀ docId, docId < GetDocCount pool →
               FinalFirstDerivatives ev' !!! docId ⊗ d_zero = d_zero) →
     (GetDocumentImportances ev pool).2
     = replicate (DocCount ev) (replicate (GetDocCount pool) d_zero)).
Proof.
  intros Hit ev'.
  assert ((GetDocumentImportances ev pool).2
          = replicate (DocCount ev)
              ((λ docId, FinalFirstDerivatives ev' !!! docId ⊗ d_zero)
                 <$> seq 0 (GetDocCount pool))) as Hmatrix.
  { apply (list_eq_same_length _ _ (DocCount ev));
      [by rewrite length_replicate|apply length_GetDocumentImportances|].
    intros trainDocId row row' Ht Hrow Hrow'.
    apply lookup_replicate in Hrow' as [-> _].
    apply list_lookup_total_correct in Hrow.
    apply (list_eq_same_length _ _ (GetDocCount pool));
      [by rewrite length_fmap, length_seq| |].
    { rewrite <-Hrow, GetDocumentImportances_row by done. unfold importancesRow.
      by rewrite length_GetDocumentImportancesForOneTrainDoc, length_replicate. }
    intros docId x y He Hx Hy.
    rewrite list_lookup_fmap, lookup_seq_lt in Hy by done. injection Hy as <-.
    apply list_lookup_total_correct in Hx. rewrite <-Hx, <-Hrow.
    rewrite GetDocumentImportances_row by done. fold ev'. unfold importancesRow.
    rewrite GetDocumentImportancesForOneTrainDoc_lookup by by rewrite length_replicate.
    rewrite length_replicate, predictedDerivativesOf_lookup by done.
    change (LeavesEstimationIterations ev') with (LeavesEstimationIterations ev).
    by rewrite Hit, iterationPairs_no_iterations. }
  split; [done|]. intros Hzero. rewrite Hmatrix. f_equal.
  by apply fmap_seq_constant.
Qed.

(** C8.  The divisions of [UpdateLeavesDerivativesForTree] divide by the
    entries of [FormulaDenominators] at the selected leaves and, when the
    correction runs, at the leaf of the removed document, and nothing
    guards them: the guarded computation succeeds, with the result of the
    source, exactly when all these entries are nonzero. *)
Theorem divisions_defined_iff_denominators_nonzero ev (leafIdToUpdate : list nat)
    removedDocId (jacobian : list D) treeId it (leafDerivatives : list D) :
  let treeStatistics := TreesStatistics ev !!! treeId in
  let formulaDenominators := FormulaDenominators treeStatistics !!! it in
  let removedDocLeafId := LeafIndices treeStatistics !!! removedDocId in
  UpdateLeavesDerivativesForTree_checked ev leafIdToUpdate removedDocId jacobian
    treeId it leafDerivatives
  = Some (UpdateLeavesDerivativesForTree ev leafIdToUpdate removedDocId jacobian
            treeId it leafDerivatives)
  ↔ Forall (λ leafId, d_is_zero (formulaDenominators !!! leafId) = false) leafIdToUpdate
    ∧ (removedDocLeafId ∉ leafIdToUpdate →
       d_is_zero (formulaDenominators !!! removedDocLeafId) = false).
Proof.
  intros ts fd rl.
  unfold UpdateLeavesDerivativesForTree_checked, UpdateLeavesDerivativesForTree.
  cbv zeta. rewrite Fill_resize.
  set (init := (replicate (LeafCount (TreesStatistics ev !!! treeId)) d_zero, false)).
  pose proof (foldl_updateLeaf_checked_Some ev removedDocId jacobian treeId it
                leafIdToUpdate init) as Hloop.
  pose proof (foldl_updateLeaf ev removedDocId jacobian treeId it leafIdToUpdate
                (replicate (LeafCount (TreesStatistics ev !!! treeId)) d_zero) false)
    as Hflag.
  fold init in Hflag. cbn [orb] in Hflag.
  destruct (foldl (updateLeaf ev removedDocId jacobian treeId it) init leafIdToUpdate)
    as [updated flag] eqn:Hplain.
  injection Hflag as _ Hflag. fold ts rl in Hflag.
  destruct (foldl _ (Some init) leafIdToUpdate) as [[updated' flag']|] eqn:Hchecked.
  - destruct (proj1 (Hloop (updated', flag')) eq_refl) as [Hnz [= -> ->]].
    fold ts fd in Hnz.
    cbn [mbind option_bind]. destruct flag.
    + symmetry in Hflag. apply bool_decide_eq_true in Hflag.
      split; [|done]. intros _. by split.
    + symmetry in Hflag. apply bool_decide_eq_false in Hflag.
      rewrite correctRemovedDocLeaf_checked_Some. fold ts fd rl. split.
      * intros [Hr _]. by split.
      * intros [_ Hr]. split; [by apply Hr|done].
  - cbn [mbind option_bind]. split; [done|]. intros [Hnz _]. exfalso.
    assert (None = Some (updated, flag)) as Hcontra; [|done].
    apply Hloop. by split.
Qed.

(** C9.  In every iteration of every tree the vector of leaf derivatives has
    the leaf count of the tree as its length and is zero at every leaf that
    is neither selected nor the leaf of the removed document. *)
Theorem unselected_leaves_stay_zero ev removedDocId treeId it :
  treeId < TreeCount ev → it < LeavesEstimationIterations ev →
  let treeStatistics := TreesStatistics ev !!! treeId in
  let jacobian := jacobianBefore ev removedDocId treeId it in
  let selected := GetLeafIdToUpdate ev treeId jacobian in
  let derivatives := (leafDerivativesOf ev removedDocId !!! treeId) !!! it in
  length derivatives = LeafCount treeStatistics
  ∧ ∀ leafId,
      leafId ∉ selected → leafId ≠ LeafIndices treeStatistics !!! removedDocId →
      derivatives !!! leafId = d_zero.
Proof.
  intros Ht Hi ts jacobian selected derivatives. subst derivatives.
  rewrite leafDerivativesOf_entry by done. split.
  - apply length_UpdateLeavesDerivativesForTree.
  - intros leafId Hsel Hne. by apply UpdateLeavesDerivativesForTree_other.
Qed.

(** C10.  In every iteration of every tree,
    [FormulaNumeratorAdding[removedDocId]] enters the derivative of the leaf
    of the removed document once, after the sum over the bucket when the
    leaf is selected and after the product of the correction otherwise, and
    it enters the derivative of no other leaf. *)
Theorem direct_term_added_once ev removedDocId treeId it :
  WellFormed ev → removedDocId < DocCount ev →
  treeId < TreeCount ev → it < LeavesEstimationIterations ev →
  let treeStatistics := TreesStatistics ev !!! treeId in
  let jacobian := jacobianBefore ev removedDocId treeId it in
  let selected := GetLeafIdToUpdate ev treeId jacobian in
  let derivatives := (leafDerivativesOf ev removedDocId !!! treeId) !!! it in
  let removedDocLeafId := LeafIndices treeStatistics !!! removedDocId in
  let adding := (FormulaNumeratorAdding treeStatistics !!! it) !!! removedDocId in
  derivatives !!! removedDocLeafId
  = ((if decide (removedDocLeafId ∈ selected)
      then bucketSum ev jacobian treeId it removedDocLeafId
      else d_zero
           ⊕ jacobian !!! removedDocId
             ⊗ (FormulaNumeratorMultiplier treeStatistics !!! it) !!! removedDocId)
     ⊕ adding)
    ⊗ leafScale ev treeId it removedDocLeafId
  ∧ ∀ leafId,
      leafId ≠ removedDocLeafId →
      derivatives !!! leafId
      = if decide (leafId ∈ selected)
        then bucketSum ev jacobian treeId it leafId ⊗ leafScale ev treeId it leafId
        else d_zero.
Proof.
  intros Hwf Hr Ht Hi ts jacobian selected derivatives rl adding.
  pose proof (WellFormed_tree ev treeId Hwf Ht) as Htree.
  assert (NoDup selected) as Hnd by by apply GetLeafIdToUpdate_NoDup.
  assert (∀ leafId, leafId ∈ selected → leafId < LeafCount ts) as Hrange.
  { intros leafId Hin. subst ts. rewrite <-TreeWellFormed_leafCountOf by done.
    by apply (GetLeafIdToUpdate_lt Sort_Permutation) in Hin. }
  subst derivatives. rewrite leafDerivativesOf_entry by done.
  fold jacobian selected. split.
  - case_decide as Hsel.
    + rewrite UpdateLeavesDerivativesForTree_selected by auto.
      fold ts rl. by rewrite decide_True.
    + by apply UpdateLeavesDerivativesForTree_removed; [|apply TreeWellFormed_leaf_lt].
  - intros leafId Hne. case_decide as Hsel.
    + rewrite UpdateLeavesDerivativesForTree_selected by auto.
      fold ts rl. by rewrite decide_False.
    + by apply UpdateLeavesDerivativesForTree_other.
Qed.

End Properties.

(** * Further properties of the methods *)

Section Further.
Context {D : Type} `{!DoubleOps D} {sorter : SortAlgorithm} {collaborators : Collaborators D}.

Hypothesis Sort_Permutation : ∀ cmp l, Sort cmp l ≡ₚ l.

Implicit Types (ev : TDocumentImportancesEvaluator D).
Implicit Types (jacobian : list D).

(** ** Shapes *)

(** X1.  The matrix has [DocCount] rows, and every row has one entry per
    document of the pool. *)
Theorem importance_matrix_shape ev (pool : TPool) :
  length (GetDocumentImportances ev pool).2 = DocCount ev
  ∧ Forall (λ row, length row = GetDocCount pool) (GetDocumentImportances ev pool).2.
Proof.
  split; [apply length_GetDocumentImportances|].
  apply Forall_lookup. intros trainDocId row Hrow.
  assert (trainDocId < DocCount ev) as Ht.
  { rewrite <-(length_GetDocumentImportances ev pool). by eapply lookup_lt_Some. }
  apply list_lookup_total_correct in Hrow.
  rewrite <-Hrow, GetDocumentImportances_row by done. unfold importancesRow.
  by rewrite length_GetDocumentImportancesForOneTrainDoc, length_replicate.
Qed.

Lemma length_foldl_passes {B} (g : B → nat → D) (passes : list B) (v : list D) (n : nat) :
  length (foldl (λ v p, foldl (λ v docId, add_at docId (g p docId) v) v (seq 0 n))
                v passes)
  = length v.
Proof.
  revert v. induction passes as [|p passes IH]; intros v; [done|].
  cbn [foldl]. by rewrite IH, (length_foldl_add_at (λ docId, docId)).
Qed.

Lemma finalApproxesOf_pairs ev (leafIndices : list (list nat)) (docCount : nat) :
  finalApproxesOf ev leafIndices docCount
  = foldl (λ v p,
             foldl (λ v docId,
                      add_at docId
                        ((LeafValues (TreesStatistics ev !!! p.1) !!! p.2)
                           !!! ((leafIndices !!! p.1) !!! docId)) v)
                   v (seq 0 docCount))
          (replicate docCount d_zero)
          (iterationPairs (TreeCount ev) (LeavesEstimationIterations ev)).
Proof.
  unfold finalApproxesOf, iterationPairs. rewrite foldl_bind.
  apply foldl_ext_in. intros v treeId _. by rewrite foldl_fmap.
Qed.

(** X2.  [UpdateFinalFirstDerivatives] stores what the derivative source
    returns for the final approxes, a vector with one entry per document of
    the pool whose entry for a document is the sum, over the trees and the
    iterations in the order of the loops, of the leaf value of the leaf the
    document falls into. *)
Theorem final_first_derivatives_of_summed_leaf_values ev
    (leafIndices : list (list nat)) (pool : TPool) :
  let docCount := GetDocCount pool in
  let finalApproxes := finalApproxesOf ev leafIndices docCount in
  FinalFirstDerivatives (UpdateFinalFirstDerivatives ev leafIndices pool)
  = EvaluateDerivatives finalApproxes pool
  ∧ length finalApproxes = docCount
  ∧ ∀ docId,
      docId < docCount →
      finalApproxes !!! docId
      = d_sum ((λ p, (LeafValues (TreesStatistics ev !!! p.1) !!! p.2)
                       !!! ((leafIndices !!! p.1) !!! docId))
                 <$> iterationPairs (TreeCount ev) (LeavesEstimationIterations ev)).
Proof.
  intros docCount finalApproxes. split_and!.
  - done.
  - subst finalApproxes. rewrite finalApproxesOf_pairs.
    by rewrite (length_foldl_passes
                  (λ p docId, (LeafValues (TreesStatistics ev !!! p.1) !!! p.2)
                                !!! ((leafIndices !!! p.1) !!! docId))),
         length_replicate.
  - intros docId Hlt. subst finalApproxes. rewrite finalApproxesOf_pairs.
    rewrite (foldl_passes_lookup
               (λ p docId, (LeafValues (TreesStatistics ev !!! p.1) !!! p.2)
                             !!! ((leafIndices !!! p.1) !!! docId)))
      by by rewrite ?length_replicate.
    rewrite lookup_total_replicate_2 by done. apply foldl_add_d_sum.
Qed.

(** X3.  Whatever the update method and the jacobian, the selection names no
    leaf twice, names only leaves of the tree, and so has at most
    [leafCount] elements. *)
Theorem selection_duplicate_free_and_in_range ev treeId jacobian :
  let selected := GetLeafIdToUpdate ev treeId jacobian in
  NoDup selected
  ∧ (∀ leafId, leafId ∈ selected → leafId < leafCountOf ev treeId)
  ∧ length selected ≤ leafCountOf ev treeId.
Proof.
  intros selected.
  assert (NoDup selected) as Hnd by by apply GetLeafIdToUpdate_NoDup.
  split_and!; [done| |].
  - intros leafId Hin. by apply (GetLeafIdToUpdate_lt Sort_Permutation) in Hin.
  - assert (length selected ≤ length (seq 0 (leafCountOf ev treeId))) as Hlen.
    { apply submseteq_length, NoDup_submseteq; [done|].
      intros leafId Hin. apply elem_of_seq.
      apply (GetLeafIdToUpdate_lt Sort_Permutation) in Hin. lia. }
    by rewrite length_seq in Hlen.
Qed.

(** ** The selection at its two extremes *)

(** X4.  Under [AllPoints] the leaf of the removed document is always
    selected, so the correction never runs, and every leaf of the tree gets
    the derivative of the formula: none is left at the zero of the fill. *)
Theorem all_points_computes_every_leaf ev removedDocId treeId it jacobian
    (leafDerivatives : list D) leafId :
  UpdateType (UpdateMethod ev) = AllPoints →
  TreeWellFormed ev treeId → removedDocId < DocCount ev →
  let treeStatistics := TreesStatistics ev !!! treeId in
  let selected := GetLeafIdToUpdate ev treeId jacobian in
  let removedDocLeafId := LeafIndices treeStatistics !!! removedDocId in
  leafId < LeafCount treeStatistics →
  removedDocLeafId ∈ selected
  ∧ UpdateLeavesDerivativesForTree ev selected removedDocId jacobian treeId it
      leafDerivatives !!! leafId
    = (if decide (leafId = removedDocLeafId)
       then bucketSum ev jacobian treeId it leafId
            ⊕ (FormulaNumeratorAdding treeStatistics !!! it) !!! removedDocId
       else bucketSum ev jacobian treeId it leafId)
      ⊗ leafScale ev treeId it leafId.
Proof.
  intros Hall Hwf Hr ts selected rl Hleaf. subst selected.
  rewrite GetLeafIdToUpdate_AllPoints by done.
  rewrite TreeWellFormed_leafCountOf by done. fold ts. split.
  - apply elem_of_seq. pose proof (TreeWellFormed_leaf_lt ev treeId removedDocId Hwf Hr).
    subst rl ts. lia.
  - apply UpdateLeavesDerivativesForTree_selected; [apply NoDup_seq| |done].
    apply elem_of_seq. lia.
Qed.

Lemma GetLeafIdToUpdate_nothing ev treeId jacobian :
  UpdateType (UpdateMethod ev) ≠ AllPoints →
  (UpdateType (UpdateMethod ev) = TopKLeaves → TopSize (UpdateMethod ev) = 0) →
  GetLeafIdToUpdate ev treeId jacobian = [].
Proof.
  intros Hty Htop. unfold GetLeafIdToUpdate.
  destruct (UpdateType (UpdateMethod ev)); [done| |done].
  by rewrite Htop.
Qed.

Lemma alter_replicate {A} (f : A → A) (i n : nat) (z : A) :
  alter f i (replicate n z) = <[i := f z]> (replicate n z).
Proof.
  rewrite list_insert_alter. apply list_alter_ext; [|done].
  intros x Hx. by apply lookup_replicate in Hx as [-> _].
Qed.

Lemma lookup_total_replicate_zero (n i : nat) : replicate n d_zero !!! i = d_zero.
Proof.
  rewrite list_lookup_total_alt.
  destruct (replicate n d_zero !! i) as [x|] eqn:Hx; [|done].
  by apply lookup_replicate in Hx as [-> _].
Qed.

(** X5.  When nothing is selected ([TopSize] zero under [TopKLeaves], or an
    update type other than the two the selection tests for, whatever
    [TopSize] is), the vector of leaf derivatives of an iteration is zero but
    for the leaf of the removed document, which holds the correction. *)
Theorem nothing_selected_only_corrects ev removedDocId treeId it :
  UpdateType (UpdateMethod ev) ≠ AllPoints →
  (UpdateType (UpdateMethod ev) = TopKLeaves → TopSize (UpdateMethod ev) = 0) →
  treeId < TreeCount ev → it < LeavesEstimationIterations ev →
  let treeStatistics := TreesStatistics ev !!! treeId in
  let jacobian := jacobianBefore ev removedDocId treeId it in
  let removedDocLeafId := LeafIndices treeStatistics !!! removedDocId in
  (leafDerivativesOf ev removedDocId !!! treeId) !!! it
  = <[removedDocLeafId :=
        (d_zero
         ⊕ jacobian !!! removedDocId
           ⊗ (FormulaNumeratorMultiplier treeStatistics !!! it) !!! removedDocId
         ⊕ (FormulaNumeratorAdding treeStatistics !!! it) !!! removedDocId)
        ⊗ leafScale ev treeId it removedDocLeafId]>
      (replicate (LeafCount treeStatistics) d_zero).
Proof.
  intros Hty Htop Ht Hi ts jacobian rl.
  rewrite leafDerivativesOf_entry by done. fold jacobian.
  rewrite GetLeafIdToUpdate_nothing by done.
  rewrite UpdateLeavesDerivativesForTree_unfold. cbv zeta.
  rewrite bool_decide_eq_false_2 by by intros ?%elem_of_nil.
  rewrite correctRemovedDocLeaf_alter. cbn [leafOps fmap list_fmap apply_ops foldl].
  by rewrite alter_replicate.
Qed.

Lemma jacobianStep_nothing ev removedDocId jacobian p :
  UpdateType (UpdateMethod ev) ≠ AllPoints →
  (UpdateType (UpdateMethod ev) = TopKLeaves → TopSize (UpdateMethod ev) = 0) →
  ∃ x, jacobianStep ev removedDocId jacobian p = add_at removedDocId x jacobian.
Proof.
  intros Hty Htop. unfold jacobianStep. rewrite GetLeafIdToUpdate_nothing by done.
  rewrite updateJacobian_unfold. cbv zeta.
  rewrite bool_decide_eq_false_2 by by intros ?%elem_of_nil.
  eexists. reflexivity.
Qed.

(** X6.  When nothing is selected ([TopSize] zero under [TopKLeaves], or an
    update type other than the two the selection tests for, whatever
    [TopSize] is), the jacobian entry of every document other than the
    removed one is zero on entry to every iteration: only the removed
    document's own sensitivity is ever propagated. *)
Theorem nothing_selected_jacobian_stays_zero ev removedDocId treeId it docId :
  UpdateType (UpdateMethod ev) ≠ AllPoints →
  (UpdateType (UpdateMethod ev) = TopKLeaves → TopSize (UpdateMethod ev) = 0) →
  docId ≠ removedDocId →
  jacobianBefore ev removedDocId treeId it !!! docId = d_zero.
Proof.
  intros Hty Htop Hne. unfold jacobianBefore.
  generalize (iterationPairsBefore (LeavesEstimationIterations ev) treeId it).
  intros pairs.
  assert (∀ jacobian,
            foldl (jacobianStep ev removedDocId) jacobian pairs !!! docId
            = jacobian !!! docId) as Hkeep.
  { induction pairs as [|p pairs IH]; intros jacobian; [done|].
    cbn [foldl]. rewrite IH.
    destruct (jacobianStep_nothing ev removedDocId jacobian p Hty Htop) as [x ->].
    unfold add_at. by rewrite list_lookup_total_alter_ne. }
  rewrite Hkeep. apply lookup_total_replicate_zero.
Qed.

(** ** The tensor of leaf derivatives *)

Lemma propagateIteration_lengths ev removedDocId treeId it jacobian
    (leafDerivatives : list (list (list D))) :
  let leafDerivatives' :=
    (propagateIteration ev removedDocId treeId it (jacobian, leafDerivatives)).2 in
  length leafDerivatives' = length leafDerivatives
  ∧ ∀ treeId', length (leafDerivatives' !!! treeId')
               = length (leafDerivatives !!! treeId').
Proof.
  unfold propagateIteration. cbn [snd]. cbv zeta. split; [apply length_alter|].
  intros treeId'. rewrite list_lookup_total_alter. case_decide as Heq; [|done].
  destruct Heq as [-> _]. apply length_insert.
Qed.

Lemma foldl_propagateIteration_lengths ev removedDocId (pairs : list (nat * nat)) jacobian
    (leafDerivatives : list (list (list D))) :
  let leafDerivatives' :=
    (foldl (λ st p, propagateIteration ev removedDocId p.1 p.2 st)
           (jacobian, leafDerivatives) pairs).2 in
  length leafDerivatives' = length leafDerivatives
  ∧ ∀ treeId', length (leafDerivatives' !!! treeId')
               = length (leafDerivatives !!! treeId').
Proof.
  revert jacobian leafDerivatives.
  induction pairs as [|[treeId it] pairs IH]; intros jacobian leafDerivatives; [done|].
  cbn [foldl fst snd].
  destruct (propagateIteration_lengths ev removedDocId treeId it jacobian leafDerivatives)
    as [Hlen Hrows].
  destruct (propagateIteration ev removedDocId treeId it (jacobian, leafDerivatives))
    as [jacobian' leafDerivatives'].
  cbn [snd] in Hlen, Hrows.
  destruct (IH jacobian' leafDerivatives') as [Hlen' Hrows']. split.
  - by rewrite Hlen', Hlen.
  - intros treeId'. by rewrite Hrows', Hrows.
Qed.

(** The slot of a tree and an iteration, whatever the tensor held before. *)
Lemma UpdateLeavesDerivatives_entry ev removedDocId
    (leafDerivatives : list (list (list D))) treeId it :
  treeId < TreeCount ev → it < LeavesEstimationIterations ev →
  treeId < length leafDerivatives → it < length (leafDerivatives !!! treeId) →
  (UpdateLeavesDerivatives ev removedDocId leafDerivatives !!! treeId) !!! it
  = UpdateLeavesDerivativesForTree ev
      (GetLeafIdToUpdate ev treeId (jacobianBefore ev removedDocId treeId it))
      removedDocId (jacobianBefore ev removedDocId treeId it) treeId it [].
Proof.
  intros Ht Hi Hlen Hrow. unfold UpdateLeavesDerivatives, jacobianBefore.
  rewrite propagate_pairs.
  rewrite (iterationPairs_split _ _ treeId it) by done.
  rewrite foldl_app. cbn [foldl].
  destruct (foldl_propagateIteration_shape ev removedDocId treeId it
              (replicate (DocCount ev) d_zero) leafDerivatives
              (iterationPairsBefore (LeavesEstimationIterations ev) treeId it)
              Hlen Hrow) as [Ht' Hi'].
  pose proof (foldl_propagateIteration_jacobian ev removedDocId
                (replicate (DocCount ev) d_zero) leafDerivatives
                (iterationPairsBefore (LeavesEstimationIterations ev) treeId it))
    as Hjac.
  destruct (foldl (λ st p, propagateIteration ev removedDocId p.1 p.2 st)
                  (replicate (DocCount ev) d_zero, leafDerivatives)
                  (iterationPairsBefore (LeavesEstimationIterations ev) treeId it))
    as [jacobian before].
  cbn [fst snd] in *. subst jacobian.
  set (jacobian := foldl (jacobianStep ev removedDocId) _ _).
  destruct (propagateIteration ev removedDocId treeId it (jacobian, before))
    as [jacobian' after] eqn:Hstep.
  rewrite foldl_propagateIteration_other by apply iterationPairs_after_ne.
  replace after with (propagateIteration ev removedDocId treeId it (jacobian, before)).2
    by by rewrite Hstep.
  by apply propagateIteration_entry.
Qed.

Lemma leafDerivativesOf_lengths ev removedDocId :
  length (leafDerivativesOf ev removedDocId) = TreeCount ev
  ∧ ∀ treeId,
      treeId < TreeCount ev →
      length (leafDerivativesOf ev removedDocId !!! treeId)
      = LeavesEstimationIterations ev.
Proof.
  destruct (foldl_propagateIteration_lengths ev removedDocId
              (iterationPairs (TreeCount ev) (LeavesEstimationIterations ev))
              (replicate (DocCount ev) d_zero)
              (replicate (TreeCount ev)
                 (replicate (LeavesEstimationIterations ev) ([] : list D))))
    as [Hlen Hrows].
  rewrite <-propagate_pairs in Hlen, Hrows. split.
  - unfold leafDerivativesOf, UpdateLeavesDerivatives.
    by rewrite Hlen, length_replicate.
  - intros treeId Ht. unfold leafDerivativesOf, UpdateLeavesDerivatives.
    by rewrite Hrows, lookup_total_replicate_2, length_replicate.
Qed.

(** X7.  The tensor a task computes has the shape the source announces,
    [treeCount][LeavesEstimationIterations][leafCount], and the jacobian
    keeps one entry per training document. *)
Theorem leaf_derivatives_shape ev removedDocId :
  let leafDerivatives := leafDerivativesOf ev removedDocId in
  length leafDerivatives = TreeCount ev
  ∧ (∀ treeId,
       treeId < TreeCount ev →
       length (leafDerivatives !!! treeId) = LeavesEstimationIterations ev
       ∧ ∀ it,
           it < LeavesEstimationIterations ev →
           length ((leafDerivatives !!! treeId) !!! it)
           = LeafCount (TreesStatistics ev !!! treeId))
  ∧ ∀ treeId it, length (jacobianBefore ev removedDocId treeId it) = DocCount ev.
Proof.
  intros leafDerivatives. subst leafDerivatives.
  destruct (leafDerivativesOf_lengths ev removedDocId) as [Hlen Hrows].
  split_and!; [done| |].
  - intros treeId Ht. split; [by apply Hrows|].
    intros it Hi. rewrite leafDerivativesOf_entry by done.
    apply length_UpdateLeavesDerivativesForTree.
  - intros treeId it. apply length_jacobianBefore.
Qed.

(** X8.  [UpdateLeavesDerivatives] overwrites every slot of the tensor it is
    handed: on a tensor of [TreeCount] rows of [LeavesEstimationIterations]
    slots the result does not depend on what the slots held. *)
Theorem UpdateLeavesDerivatives_overwrites ev removedDocId
    (leafDerivatives : list (list (list D))) :
  length leafDerivatives = TreeCount ev →
  Forall (λ perIteration, length perIteration = LeavesEstimationIterations ev)
         leafDerivatives →
  UpdateLeavesDerivatives ev removedDocId leafDerivatives
  = leafDerivativesOf ev removedDocId.
Proof.
  intros Hlen Hrows.
  destruct (foldl_propagateIteration_lengths ev removedDocId
              (iterationPairs (TreeCount ev) (LeavesEstimationIterations ev))
              (replicate (DocCount ev) d_zero) leafDerivatives) as [Hlen' Hrows'].
  rewrite <-propagate_pairs in Hlen', Hrows'.
  fold (UpdateLeavesDerivatives ev removedDocId leafDerivatives) in Hlen', Hrows'.
  assert (∀ treeId, treeId < TreeCount ev →
            length (leafDerivatives !!! treeId) = LeavesEstimationIterations ev)
    as Hrow.
  { intros treeId Ht. rewrite Forall_lookup in Hrows.
    apply (Hrows treeId). apply list_lookup_lookup_total_lt. lia. }
  destruct (leafDerivativesOf_lengths ev removedDocId) as (Hfresh & Hfresh_rows).
  apply (list_eq_same_length _ _ (TreeCount ev)); [done|lia|].
  intros treeId row row' Ht Hr Hr'.
  apply list_lookup_total_correct in Hr, Hr'. subst row row'.
  apply (list_eq_same_length _ _ (LeavesEstimationIterations ev));
    [by apply Hfresh_rows|by rewrite Hrows', Hrow|].
  intros it x y Hi Hx Hy.
  apply list_lookup_total_correct in Hx, Hy. subst x y.
  rewrite UpdateLeavesDerivatives_entry, leafDerivativesOf_entry; try done; [lia|].
  by rewrite Hrow.
Qed.

(** ** Rows and the order of work *)

(** X9.  [GetDocumentImportancesForOneTrainDoc] keeps the length of the row
    it writes and overwrites every entry: rows of equal length give equal
    results. *)
Theorem GetDocumentImportancesForOneTrainDoc_overwrites ev
    (leafDerivatives : list (list (list D))) (leafIndices : list (list nat))
    (row row' : list D) :
  length row = length row' →
  length (GetDocumentImportancesForOneTrainDoc ev leafDerivatives leafIndices row)
  = length row
  ∧ GetDocumentImportancesForOneTrainDoc ev leafDerivatives leafIndices row
    = GetDocumentImportancesForOneTrainDoc ev leafDerivatives leafIndices row'.
Proof.
  intros Hlen. split; [apply length_GetDocumentImportancesForOneTrainDoc|].
  apply (list_eq_same_length _ _ (length row));
    [by rewrite length_GetDocumentImportancesForOneTrainDoc
    |by rewrite length_GetDocumentImportancesForOneTrainDoc|].
  intros docId x y Hlt Hx Hy.
  apply list_lookup_total_correct in Hx, Hy. subst x y.
  rewrite !GetDocumentImportancesForOneTrainDoc_lookup by lia.
  by rewrite Hlen.
Qed.

(** X10.  The tasks of the second [ExecRange] write disjoint rows: run one
    after the other in any order, each once, they produce the matrix that
    [GetDocumentImportances] returns. *)
Theorem row_tasks_in_any_order ev (pool : TPool) (order : list nat) :
  order ≡ₚ seq 0 (DocCount ev) →
  let ev' := (GetDocumentImportances ev pool).1 in
  let leafIndices :=
    (λ treeId, BuildIndicesForBinTree pool treeId) <$> seq 0 (TreeCount ev) in
  runRowTasks ev' leafIndices order
    (replicate (DocCount ev) (replicate (GetDocCount pool) d_zero))
  = (GetDocumentImportances ev pool).2.
Proof.
  intros Hperm ev' leafIndices. unfold runRowTasks, GetDocumentImportances.
  cbv zeta. cbn [snd]. fold leafIndices.
  change (UpdateFinalFirstDerivatives ev leafIndices pool) with ev'.
  change (DocCount ev') with (DocCount ev).
  rewrite !(foldl_alter_ops (λ docId, docId)
              (λ docId, importancesRow ev' leafIndices docId)).
  apply apply_ops_Permutation.
  - rewrite ops_indices_id, Hperm. apply NoDup_seq.
  - by rewrite Hperm.
Qed.

(** X11.  Only the set of selected leaves matters, not their order: two
    duplicate-free selections with the same leaves give the same leaf
    derivatives and the same jacobian update. *)
Theorem selection_order_irrelevant ev removedDocId treeId it jacobian
    (selected selected' : list nat) (buffer derivatives : list D) :
  TreeWellFormed ev treeId → NoDup selected →
  (∀ leafId, leafId ∈ selected → leafId < LeafCount (TreesStatistics ev !!! treeId)) →
  selected ≡ₚ selected' →
  UpdateLeavesDerivativesForTree ev selected removedDocId jacobian treeId it buffer
  = UpdateLeavesDerivativesForTree ev selected' removedDocId jacobian treeId it buffer
  ∧ updateJacobian ev removedDocId treeId selected derivatives jacobian
    = updateJacobian ev removedDocId treeId selected' derivatives jacobian.
Proof.
  intros Hwf Hnd Hrange Hperm. split.
  - by apply UpdateLeavesDerivativesForTree_Permutation.
  - by apply updateJacobian_Permutation.
Qed.

(** ** Divisions over the whole run *)

Lemma UpdateLeavesDerivativesForTree_checked_ok ev (leafIdToUpdate : list nat)
    removedDocId jacobian treeId it (leafDerivatives : list D) :
  let treeStatistics := TreesStatistics ev !!! treeId in
  let formulaDenominators := FormulaDenominators treeStatistics !!! it in
  let removedDocLeafId := LeafIndices treeStatistics !!! removedDocId in
  Forall (λ leafId, d_is_zero (formulaDenominators !!! leafId) = false) leafIdToUpdate →
  (removedDocLeafId ∉ leafIdToUpdate →
   d_is_zero (formulaDenominators !!! removedDocLeafId) = false) →
  UpdateLeavesDerivativesForTree_checked ev leafIdToUpdate removedDocId jacobian
    treeId it leafDerivatives
  = Some (UpdateLeavesDerivativesForTree ev leafIdToUpdate removedDocId jacobian
            treeId it leafDerivatives).
Proof.
  intros ts fd rl Hnz Hr.
  unfold UpdateLeavesDerivativesForTree_checked, UpdateLeavesDerivativesForTree.
  cbv zeta. rewrite Fill_resize.
  set (init := (replicate (LeafCount (TreesStatistics ev !!! treeId)) d_zero, false)).
  rewrite (proj2 (foldl_updateLeaf_checked_Some ev removedDocId jacobian treeId it
                    leafIdToUpdate init
                    (foldl (updateLeaf ev removedDocId jacobian treeId it) init
                           leafIdToUpdate))) by done.
  cbn [mbind option_bind]. unfold init. rewrite foldl_updateLeaf. cbn [orb].
  case_bool_decide as Hin; [done|].
  apply correctRemovedDocLeaf_checked_Some. split; [by apply Hr|done].
Qed.

(** X12.  If no denominator of a tree and an iteration is zero at a leaf of
    the tree, then in that iteration of the run every division has a nonzero
    denominator: the guarded computation, on the selection and the jacobian
    the run reaches, succeeds with the slot of the tensor. *)
Theorem run_divisions_defined ev removedDocId treeId it :
  WellFormed ev → removedDocId < DocCount ev →
  treeId < TreeCount ev → it < LeavesEstimationIterations ev →
  let treeStatistics := TreesStatistics ev !!! treeId in
  let jacobian := jacobianBefore ev removedDocId treeId it in
  (∀ leafId,
     leafId < LeafCount treeStatistics →
     d_is_zero ((FormulaDenominators treeStatistics !!! it) !!! leafId) = false) →
  UpdateLeavesDerivativesForTree_checked ev (GetLeafIdToUpdate ev treeId jacobian)
    removedDocId jacobian treeId it []
  = Some ((leafDerivativesOf ev removedDocId !!! treeId) !!! it).
Proof.
  intros Hwf Hr Ht Hi ts jacobian Hnz.
  pose proof (WellFormed_tree ev treeId Hwf Ht) as Htree.
  rewrite leafDerivativesOf_entry by done. fold jacobian.
  apply UpdateLeavesDerivativesForTree_checked_ok.
  - apply Forall_forall. intros leafId Hin. apply Hnz. subst ts.
    rewrite <-TreeWellFormed_leafCountOf by done.
    by apply (GetLeafIdToUpdate_lt Sort_Permutation) in Hin.
  - intros _. apply Hnz. by apply TreeWellFormed_leaf_lt.
Qed.

(** ** No tree, or no iteration *)

(** X13.  With no tree or no leaf estimation iteration, the derivative
    source is asked for the derivatives at the all-zero approxes. *)
Theorem no_passes_derivatives_at_zero ev (leafIndices : list (list nat)) (pool : TPool) :
  TreeCount ev = 0 ∨ LeavesEstimationIterations ev = 0 →
  FinalFirstDerivatives (UpdateFinalFirstDerivatives ev leafIndices pool)
  = EvaluateDerivatives (replicate (GetDocCount pool) d_zero) pool.
Proof.
  intros Hnone. unfold UpdateFinalFirstDerivatives. cbv zeta.
  cbn [FinalFirstDerivatives set_FinalFirstDerivatives].
  rewrite finalApproxesOf_pairs.
  assert (iterationPairs (TreeCount ev) (LeavesEstimationIterations ev) = []) as ->;
    [|done].
  destruct Hnone as [-> | ->]; [done|apply iterationPairs_no_iterations].
Qed.

(** X14.  With no tree every entry of the matrix is
    [FinalFirstDerivatives[docId]] times the empty sum. *)
Theorem no_trees_matrix ev (pool : TPool) :
  TreeCount ev = 0 →
  let ev' := (GetDocumentImportances ev pool).1 in
  (GetDocumentImportances ev pool).2
  = replicate (DocCount ev)
      ((λ docId, FinalFirstDerivatives ev' !!! docId ⊗ d_zero)
         <$> seq 0 (GetDocCount pool)).
Proof.
  intros Hnone ev'.
  apply (list_eq_same_length _ _ (DocCount ev));
    [by rewrite length_replicate|apply length_GetDocumentImportances|].
  intros trainDocId row row' Ht Hrow Hrow'.
  apply lookup_replicate in Hrow' as [-> _].
  apply list_lookup_total_correct in Hrow.
  apply (list_eq_same_length _ _ (GetDocCount pool));
    [by rewrite length_fmap, length_seq| |].
  { rewrite <-Hrow, GetDocumentImportances_row by done. unfold importancesRow.
    by rewrite length_GetDocumentImportancesForOneTrainDoc, length_replicate. }
  intros docId x y He Hx Hy.
  rewrite list_lookup_fmap, lookup_seq_lt in Hy by done. injection Hy as <-.
  apply list_lookup_total_correct in Hx. rewrite <-Hx, <-Hrow.
  rewrite GetDocumentImportances_row by done. fold ev'. unfold importancesRow.
  rewrite GetDocumentImportancesForOneTrainDoc_lookup by by rewrite length_replicate.
  rewrite length_replicate, predictedDerivativesOf_lookup by done.
  change (TreeCount ev') with (TreeCount ev).
  assert (iterationPairs (TreeCount ev) (LeavesEstimationIterations ev') = []) as ->
    by by rewrite Hnone.
  done.
Qed.

(** ** More on the selection and the jacobian *)

(** X15.  Under [AllPoints] the pass of the loop body adds, to the jacobian
    entry of every training document, the derivative computed for the leaf
    of that document. *)
Theorem all_points_jacobian_update ev removedDocId treeId it jacobian
    (leafDerivatives : list (list (list D))) docId :
  UpdateType (UpdateMethod ev) = AllPoints →
  TreeWellFormed ev treeId → length jacobian = DocCount ev →
  removedDocId < DocCount ev → docId < DocCount ev →
  let treeStatistics := TreesStatistics ev !!! treeId in
  let derivatives :=
    UpdateLeavesDerivativesForTree ev (GetLeafIdToUpdate ev treeId jacobian)
      removedDocId jacobian treeId it [] in
  (propagateIteration ev removedDocId treeId it (jacobian, leafDerivatives)).1 !!! docId
  = jacobian !!! docId ⊕ derivatives !!! (LeafIndices treeStatistics !!! docId).
Proof.
  intros Hall Hwf Hlen Hr Hdoc ts derivatives.
  rewrite propagateIteration_jacobian. unfold jacobianStep. cbn [fst snd].
  fold derivatives.
  assert (∀ leafId, leafId ∈ GetLeafIdToUpdate ev treeId jacobian →
                    leafId < LeafCount ts) as Hrange.
  { intros leafId Hin. subst ts. rewrite <-TreeWellFormed_leafCountOf by done.
    by apply (GetLeafIdToUpdate_lt Sort_Permutation) in Hin. }
  rewrite updateJacobian_lookup; try done; [|by apply GetLeafIdToUpdate_NoDup].
  fold ts. rewrite decide_True; [done|].
  rewrite GetLeafIdToUpdate_AllPoints, TreeWellFormed_leafCountOf by done.
  apply elem_of_seq. pose proof (TreeWellFormed_leaf_lt ev treeId docId Hwf Hdoc).
  subst ts. lia.
Qed.

(** X16.  Under [TopKLeaves] the ranking does not depend on [TopSize]: the
    selection for a smaller [TopSize] is a prefix of the selection for a
    greater one. *)
Theorem top_k_selection_grows_with_top_size ev treeId jacobian (topSize topSize' : nat) :
  topSize ≤ topSize' →
  GetLeafIdToUpdate (set_UpdateMethod (topKLeaves topSize) ev) treeId jacobian
  `prefix_of`
  GetLeafIdToUpdate (set_UpdateMethod (topKLeaves topSize') ev) treeId jacobian.
Proof.
  intros Hle. unfold GetLeafIdToUpdate.
  cbn [UpdateType UpdateMethod TopSize set_UpdateMethod topKLeaves]. cbv zeta.
  change (leafCountOf (set_UpdateMethod (topKLeaves topSize') ev) treeId)
    with (leafCountOf (set_UpdateMethod (topKLeaves topSize) ev) treeId).
  change (leafJacobiansOf (set_UpdateMethod (topKLeaves topSize') ev) treeId jacobian)
    with (leafJacobiansOf (set_UpdateMethod (topKLeaves topSize) ev) treeId jacobian).
  set (leafCount := leafCountOf _ treeId). set (ranked := Sort _ _).
  replace (topSize `min` leafCount)
    with ((topSize `min` leafCount) `min` (topSize' `min` leafCount)) by lia.
  rewrite <-take_take. apply prefix_take.
Qed.

Lemma leafTransform_ext ev removedDocId jacobian jacobian' treeId it leafId (y : D) :
  (∀ docId, docId ∈ LeavesDocId (TreesStatistics ev !!! treeId) !!! leafId →
            jacobian !!! docId = jacobian' !!! docId) →
  leafTransform ev removedDocId jacobian treeId it leafId y
  = leafTransform ev removedDocId jacobian' treeId it leafId y.
Proof.
  intros Hagree. unfold leafTransform. cbv zeta.
  assert (∀ (l : list nat) (z : D),
            (∀ docId, docId ∈ l → jacobian !!! docId = jacobian' !!! docId) →
            foldl (λ y docId,
                     y ⊕ (FormulaNumeratorMultiplier (TreesStatistics ev !!! treeId)
                            !!! it) !!! docId ⊗ jacobian !!! docId) z l
            = foldl (λ y docId,
                       y ⊕ (FormulaNumeratorMultiplier (TreesStatistics ev !!! treeId)
                              !!! it) !!! docId ⊗ jacobian' !!! docId) z l) as Hfold.
  { intros l z Hl. apply foldl_ext_in. intros s docId Hin. by rewrite Hl. }
  by rewrite Hfold.
Qed.

(** X17.  [UpdateLeavesDerivativesForTree] reads the jacobian only at the
    documents of the buckets of the selected leaves and at the removed
    document: two jacobians that agree there give the same leaf
    derivatives. *)
Theorem UpdateLeavesDerivativesForTree_reads_selected_buckets ev
    (leafIdToUpdate : list nat) removedDocId jacobian jacobian' treeId it
    (leafDerivatives : list D) :
  (∀ leafId docId,
     leafId ∈ leafIdToUpdate →
     docId ∈ LeavesDocId (TreesStatistics ev !!! treeId) !!! leafId →
     jacobian !!! docId = jacobian' !!! docId) →
  jacobian !!! removedDocId = jacobian' !!! removedDocId →
  UpdateLeavesDerivativesForTree ev leafIdToUpdate removedDocId jacobian treeId it
    leafDerivatives
  = UpdateLeavesDerivativesForTree ev leafIdToUpdate removedDocId jacobian' treeId it
      leafDerivatives.
Proof.
  intros Hagree Hr. rewrite !UpdateLeavesDerivativesForTree_unfold. cbv zeta.
  assert (∀ v : list D,
            apply_ops (leafOps ev removedDocId jacobian treeId it leafIdToUpdate) v
            = apply_ops (leafOps ev removedDocId jacobian' treeId it leafIdToUpdate) v)
    as ->.
  { intros v. unfold leafOps.
    rewrite <-!(foldl_alter_ops (λ leafId, leafId)
                  (λ leafId, leafTransform ev removedDocId _ treeId it leafId)).
    apply foldl_ext_in. intros w leafId Hin. apply list_alter_ext; [|done].
    intros y _. apply leafTransform_ext. intros docId Hdoc. by apply (Hagree leafId). }
  case_bool_decide; [done|].
  by rewrite !correctRemovedDocLeaf_alter, Hr.
Qed.

End Further.
(** * The properties on the example *)

#[local] Existing Instance insertion_sort_algorithm.
#[local] Existing Instance test_collaborators.

(** Discharges a strict weak ordering on the leaves of a tree of the
    example by running the comparator on every triple. *)
Ltac check_strict_weak_order :=
  repeat split; intros;
  repeat match goal with
         | H : _ ∈ seq _ _ |- _ => apply elem_of_seq in H; cbn in H
         end;
  repeat match goal with
         | H : _ <= ?a < _ |- _ =>
             is_var a; let n := fresh in destruct a as [|[|n]]; [| |exfalso; lia]
         end;
  try (vm_compute; reflexivity);
  match goal with
  | H : _ = _ |- _ => vm_compute in H; discriminate H
  end.

Lemma exampleEvaluator_WellFormed updateMethod iterations :
  WellFormed (exampleEvaluator updateMethod iterations).
Proof.
  unfold WellFormed, TreeWellFormed. cbv zeta.
  cbn [TreeCount DocCount TreeSizes TreesStatistics exampleEvaluator seq].
  apply (bool_decide_unpack _). vm_compute. exact I.
Qed.

Lemma importance_is_derivative_times_prediction_witness :
  let ev := exampleEvaluator allPoints 2 in
  let ev' := (GetDocumentImportances ev examplePool).1 in
  ((GetDocumentImportances ev examplePool).2 !!! 1) !!! 0
  = FinalFirstDerivatives ev' !!! 0
    ⊗ d_sum ((λ p, ((leafDerivativesOf ev' 1 !!! p.1) !!! p.2)
                     !!! (BuildIndicesForBinTree examplePool p.1 !!! 0))
               <$> iterationPairs 2 2).
Proof.
  intros ev ev'.
  apply (importance_is_derivative_times_prediction
           (collaborators := test_collaborators) ev examplePool 1 0);
    [cbn; lia|cbn; lia].
Defined.

Lemma selected_leaf_derivative_witness :
  let ev := exampleEvaluator (topKLeaves 1) 2 in
  let jacobian := jacobianBefore ev 1 0 1 in
  ((leafDerivativesOf ev 1 !!! 0) !!! 1) !!! 1
  = (bucketSum ev jacobian 0 1 1
     ⊕ (FormulaNumeratorAdding exampleStatistics0 !!! 1) !!! 1)
    ⊗ leafScale ev 0 1 1.
Proof.
  intros ev jacobian.
  apply (selected_leaf_derivative (sorter := insertion_sort_algorithm)
           insertion_sort_Permutation ev 1 0 1 1);
    [apply exampleEvaluator_WellFormed|cbn; lia|cbn; lia|vm_compute; left].
Defined.

Ltac not_in_singleton :=
  vm_compute; intros Hin;
  apply elem_of_cons in Hin as [Heq|Hin]; [discriminate Heq|];
  by apply elem_of_nil in Hin.

Lemma removed_leaf_correction_witness :
  let ev := exampleEvaluator (topKLeaves 1) 2 in
  let jacobian := jacobianBefore ev 1 1 1 in
  let product :=
    jacobian !!! 1 ⊗ (FormulaNumeratorMultiplier exampleStatistics1 !!! 1) !!! 1 in
  let adding := (FormulaNumeratorAdding exampleStatistics1 !!! 1) !!! 1 in
  ((leafDerivativesOf ev 1 !!! 1) !!! 1) !!! 0
  = (product ⊕ adding) ⊗ leafScale ev 1 1 0.
Proof.
  intros ev jacobian product adding.
  destruct (removed_leaf_correction (sorter := insertion_sort_algorithm) ev 1 1 1)
    as [_ Hclaim];
    [apply exampleEvaluator_WellFormed|cbn; lia|cbn; lia|cbn; lia| |].
  - not_in_singleton.
  - apply Hclaim. vm_compute. reflexivity.
Defined.

Lemma jacobian_update_witness :
  let ev := exampleEvaluator (topKLeaves 1) 2 in
  let jacobian := jacobianBefore ev 1 1 1 in
  let derivatives := (leafDerivativesOf ev 1 !!! 1) !!! 1 in
  (propagateIteration ev 1 1 1 (jacobian, [])).1 !!! 1
  = jacobian !!! 1 ⊕ derivatives !!! 0.
Proof.
  intros ev jacobian derivatives.
  destruct (jacobian_update (sorter := insertion_sort_algorithm)
              insertion_sort_Permutation ev 1 1 1 []) as (_ & Hremoved & _);
    [apply exampleEvaluator_WellFormed|cbn; lia|cbn; lia|cbn; lia|].
  apply Hremoved. not_in_singleton.
Defined.

Lemma top_k_selection_witness :
  let ev := exampleEvaluator (topKLeaves 1) 2 in
  let jacobian := jacobianBefore ev 1 1 1 in
  let mass := leafMass ev jacobian 1 in
  ∃ ranked,
    ranked ≡ₚ [0; 1]
    ∧ StronglySorted (λ a b, d_gt (mass b) (mass a) = false) ranked
    ∧ GetLeafIdToUpdate ev 1 jacobian = take 1 ranked
    ∧ length (GetLeafIdToUpdate ev 1 jacobian) = 1.
Proof.
  intros ev jacobian mass.
  apply (top_k_selection (sorter := insertion_sort_algorithm)
           insertion_sort_Permutation insertion_sort_StronglySorted
           ev 1 jacobian); [reflexivity|cbn; lia|].
  check_strict_weak_order.
Defined.

Lemma top_k_full_width_is_all_points_witness :
  (GetDocumentImportances (set_UpdateMethod (topKLeaves 2) (exampleEvaluator allPoints 2))
     examplePool).2
  = (GetDocumentImportances (set_UpdateMethod allPoints (exampleEvaluator allPoints 2))
       examplePool).2.
Proof.
  apply (top_k_full_width_is_all_points (sorter := insertion_sort_algorithm)
           (collaborators := test_collaborators) insertion_sort_Permutation);
    [apply exampleEvaluator_WellFormed| |reflexivity].
  intros [|[|treeId]] Hlt; [vm_compute; lia..|cbn in Hlt; lia].
Defined.

Lemma no_iterations_zero_matrix_witness :
  (GetDocumentImportances (exampleEvaluator allPoints 0) examplePool).2
  = replicate 3 (replicate 2 0%float).
Proof.
  change ((GetDocumentImportances (exampleEvaluator allPoints 0) examplePool).2
          = replicate (DocCount (exampleEvaluator allPoints 0))
                      (replicate (GetDocCount examplePool) d_zero)).
  destruct (no_iterations_zero_matrix (sorter := insertion_sort_algorithm)
              (collaborators := test_collaborators)
              (exampleEvaluator allPoints 0) examplePool) as [_ Hclaim];
    [reflexivity|].
  apply Hclaim.
  intros [|[|docId]] Hlt; [vm_compute; reflexivity..|cbn in Hlt; lia].
Defined.

Lemma divisions_defined_iff_denominators_nonzero_witness :
  let ev := exampleEvaluator (topKLeaves 1) 2 in
  UpdateLeavesDerivativesForTree_checked ev [0] 1 [0; 0; 0]%float 0 0 []
  = Some (UpdateLeavesDerivativesForTree ev [0] 1 [0; 0; 0]%float 0 0 []).
Proof.
  intros ev.
  apply (divisions_defined_iff_denominators_nonzero ev [0] 1 [0; 0; 0]%float 0 0 []).
  split; [by repeat constructor|]. intros _. vm_compute. reflexivity.
Defined.

Lemma unselected_leaves_stay_zero_witness :
  let ev := exampleEvaluator (topKLeaves 1) 2 in
  let derivatives := (leafDerivativesOf ev 0 !!! 0) !!! 0 in
  length derivatives = 2
  ∧ ∀ leafId,
      leafId ∉ GetLeafIdToUpdate ev 0 (jacobianBefore ev 0 0 0) → leafId ≠ 0 →
      derivatives !!! leafId = 0%float.
Proof.
  intros ev derivatives.
  refine (unselected_leaves_stay_zero (sorter := insertion_sort_algorithm) ev 0 0 0 _ _);
    cbn; lia.
Defined.

Lemma direct_term_added_once_witness :
  let ev := exampleEvaluator (topKLeaves 1) 2 in
  let jacobian := jacobianBefore ev 1 1 1 in
  let selected := GetLeafIdToUpdate ev 1 jacobian in
  let adding := (FormulaNumeratorAdding exampleStatistics1 !!! 1) !!! 1 in
  ((leafDerivativesOf ev 1 !!! 1) !!! 1) !!! 0
  = ((if decide (0 ∈ selected)
      then bucketSum ev jacobian 1 1 0
      else d_zero
           ⊕ jacobian !!! 1 ⊗ (FormulaNumeratorMultiplier exampleStatistics1 !!! 1) !!! 1)
     ⊕ adding)
    ⊗ leafScale ev 1 1 0.
Proof.
  intros ev jacobian selected adding.
  apply (direct_term_added_once (sorter := insertion_sort_algorithm)
           insertion_sort_Permutation ev 1 1 1);
    [apply exampleEvaluator_WellFormed|cbn; lia|cbn; lia|cbn; lia].
Defined.

(** ** Runs of the methods on the example *)

(** The matrix of the example under [AllPoints]. *)
Example GetDocumentImportances_example :
  (GetDocumentImportances (exampleEvaluator allPoints 2) examplePool).2
  = [[0.84423828125; -0.5361328125];
     [0.03631591796875; 0.0274658203125];
     [-0.159149169921875; -0.01007080078125]]%float.
Proof. vm_compute. reflexivity. Qed.

(** With [TopSize = 1], in iteration 1 of tree 1 for the removed document 1,
    whose leaf is 0: leaf 1 has the greater mass and is the one selected,
    and leaf 0 gets its derivative from the correction. *)
Example correction_when_another_leaf_ranks_higher :
  let ev := exampleEvaluator (topKLeaves 1) 2 in
  let jacobian := jacobianBefore ev 1 1 1 in
  LeafIndices exampleStatistics1 !!! 1 = 0
  ∧ d_gt (leafMass ev jacobian 1 1) (leafMass ev jacobian 1 0) = true
  ∧ GetLeafIdToUpdate ev 1 jacobian = [1]
  ∧ (leafDerivativesOf ev 1 !!! 1) !!! 1 = [0.251953125; 0.013671875]%float.
Proof. vm_compute. by split_and!. Qed.

(** Under [TopKLeaves] with [TopSize = 1] the matrix of the example differs
    from the one under [AllPoints]. *)
Example top_k_prunes_example :
  ((GetDocumentImportances (exampleEvaluator (topKLeaves 1) 2) examplePool).2 !!! 1) !!! 0
  = (-0.011962890625)%float.
Proof. vm_compute. reflexivity. Qed.

(** A zero denominator at a selected leaf is divided by: the guarded
    computation fails, and the source stores the quotient's infinity times
    the accumulated sum. *)
Example zero_denominator_is_divided_by :
  UpdateLeavesDerivativesForTree_checked zeroDenominatorEvaluator [0; 1] 0
    [0; 0; 0]%float 0 0 []
  = None
  ∧ UpdateLeavesDerivativesForTree zeroDenominatorEvaluator [0; 1] 0
      [0; 0; 0]%float 0 0 []
    = [neg_infinity; -0]%float.
Proof. vm_compute. by split. Qed.

(** ** The further properties on the example *)

Lemma final_first_derivatives_of_summed_leaf_values_witness :
  let ev := exampleEvaluator allPoints 2 in
  let leafIndices := poolLeafIndices examplePool in
  finalApproxesOf ev leafIndices (GetDocCount examplePool) !!! 0
  = d_sum ((λ p, (LeafValues (TreesStatistics ev !!! p.1) !!! p.2)
                   !!! ((leafIndices !!! p.1) !!! 0))
             <$> iterationPairs (TreeCount ev) (LeavesEstimationIterations ev)).
Proof.
  intros ev leafIndices.
  destruct (final_first_derivatives_of_summed_leaf_values
              (collaborators := test_collaborators) ev leafIndices examplePool)
    as (_ & _ & Hentry).
  apply Hentry. cbn. lia.
Defined.

Lemma selection_duplicate_free_and_in_range_witness :
  let ev := exampleEvaluator (topKLeaves 1) 2 in
  let selected := GetLeafIdToUpdate ev 1 (jacobianBefore ev 1 1 1) in
  NoDup selected
  ∧ (∀ leafId, leafId ∈ selected → leafId < leafCountOf ev 1)
  ∧ length selected ≤ leafCountOf ev 1.
Proof.
  intros ev selected.
  apply (selection_duplicate_free_and_in_range (sorter := insertion_sort_algorithm)
           insertion_sort_Permutation ev 1 (jacobianBefore ev 1 1 1)).
Defined.

Lemma all_points_computes_every_leaf_witness :
  let ev := exampleEvaluator allPoints 2 in
  let jacobian := jacobianBefore ev 1 0 1 in
  let selected := GetLeafIdToUpdate ev 0 jacobian in
  LeafIndices exampleStatistics0 !!! 1 ∈ selected
  ∧ UpdateLeavesDerivativesForTree ev selected 1 jacobian 0 1 [] !!! 0
    = (if decide (0 = LeafIndices exampleStatistics0 !!! 1)
       then bucketSum ev jacobian 0 1 0
            ⊕ (FormulaNumeratorAdding exampleStatistics0 !!! 1) !!! 1
       else bucketSum ev jacobian 0 1 0)
      ⊗ leafScale ev 0 1 0.
Proof.
  intros ev jacobian selected.
  apply (all_points_computes_every_leaf (sorter := insertion_sort_algorithm)
           ev 1 0 1 jacobian [] 0);
    [reflexivity| |cbn; lia|cbn; lia].
  apply WellFormed_tree; [apply exampleEvaluator_WellFormed|cbn; lia].
Defined.

Lemma nothing_selected_only_corrects_witness :
  let ev := exampleEvaluator singlePoint3 2 in
  let jacobian := jacobianBefore ev 1 0 1 in
  (leafDerivativesOf ev 1 !!! 0) !!! 1
  = <[LeafIndices exampleStatistics0 !!! 1 :=
        (d_zero
         ⊕ jacobian !!! 1 ⊗ (FormulaNumeratorMultiplier exampleStatistics0 !!! 1) !!! 1
         ⊕ (FormulaNumeratorAdding exampleStatistics0 !!! 1) !!! 1)
        ⊗ leafScale ev 0 1 (LeafIndices exampleStatistics0 !!! 1)]>
      (replicate (LeafCount exampleStatistics0) d_zero).
Proof.
  intros ev jacobian.
  apply (nothing_selected_only_corrects (sorter := insertion_sort_algorithm) ev 1 0 1);
    [discriminate|discriminate|cbn; lia|cbn; lia].
Defined.

Lemma nothing_selected_jacobian_stays_zero_witness :
  jacobianBefore (exampleEvaluator singlePoint3 2) 1 1 1 !!! 2 = d_zero
  ∧ jacobianBefore (exampleEvaluator (topKLeaves 0) 2) 1 1 1 !!! 2 = d_zero.
Proof.
  split.
  - apply (nothing_selected_jacobian_stays_zero (sorter := insertion_sort_algorithm)
             (exampleEvaluator singlePoint3 2) 1 1 1 2);
      [discriminate|discriminate|lia].
  - apply (nothing_selected_jacobian_stays_zero (sorter := insertion_sort_algorithm)
             (exampleEvaluator (topKLeaves 0) 2) 1 1 1 2);
      [discriminate|reflexivity|lia].
Defined.

Lemma leaf_derivatives_shape_witness :
  let ev := exampleEvaluator (topKLeaves 1) 2 in
  length (leafDerivativesOf ev 1 !!! 1) = LeavesEstimationIterations ev
  ∧ ∀ it,
      it < LeavesEstimationIterations ev →
      length ((leafDerivativesOf ev 1 !!! 1) !!! it)
      = LeafCount (TreesStatistics ev !!! 1).
Proof.
  intros ev.
  destruct (leaf_derivatives_shape (sorter := insertion_sort_algorithm) ev 1)
    as (_ & Hrows & _).
  apply Hrows. cbn. lia.
Defined.

Lemma UpdateLeavesDerivatives_overwrites_witness :
  let ev := exampleEvaluator (topKLeaves 1) 2 in
  UpdateLeavesDerivatives ev 1 [[[1]; []]; [[]; [2; 3]]]%float = leafDerivativesOf ev 1.
Proof.
  intros ev.
  apply (UpdateLeavesDerivatives_overwrites (sorter := insertion_sort_algorithm) ev 1);
    [reflexivity|by repeat constructor].
Defined.

Lemma GetDocumentImportancesForOneTrainDoc_overwrites_witness :
  let ev := (GetDocumentImportances (exampleEvaluator allPoints 2) examplePool).1 in
  let leafDerivatives := leafDerivativesOf ev 1 in
  let leafIndices := poolLeafIndices examplePool in
  length (GetDocumentImportancesForOneTrainDoc ev leafDerivatives leafIndices
            [1; 2]%float)
  = length [1; 2]%float
  ∧ GetDocumentImportancesForOneTrainDoc ev leafDerivatives leafIndices [1; 2]%float
    = GetDocumentImportancesForOneTrainDoc ev leafDerivatives leafIndices [0; 0]%float.
Proof.
  intros ev leafDerivatives leafIndices.
  apply (GetDocumentImportancesForOneTrainDoc_overwrites ev leafDerivatives leafIndices
           [1; 2]%float [0; 0]%float).
  reflexivity.
Defined.

Lemma row_tasks_in_any_order_witness :
  let ev := exampleEvaluator allPoints 2 in
  let ev' := (GetDocumentImportances ev examplePool).1 in
  let leafIndices :=
    (λ treeId, BuildIndicesForBinTree examplePool treeId) <$> seq 0 (TreeCount ev) in
  runRowTasks ev' leafIndices [2; 0; 1]
    (replicate (DocCount ev) (replicate (GetDocCount examplePool) d_zero))
  = (GetDocumentImportances ev examplePool).2.
Proof.
  intros ev ev' leafIndices.
  apply (row_tasks_in_any_order (sorter := insertion_sort_algorithm)
           (collaborators := test_collaborators) ev examplePool [2; 0; 1]).
  cbn [DocCount ev exampleEvaluator seq].
  apply (bool_decide_unpack _). vm_compute. exact I.
Defined.

Lemma selection_order_irrelevant_witness :
  let ev := exampleEvaluator allPoints 2 in
  UpdateLeavesDerivativesForTree ev [0; 1] 1 [1; 2; 3]%float 0 0 []
  = UpdateLeavesDerivativesForTree ev [1; 0] 1 [1; 2; 3]%float 0 0 []
  ∧ updateJacobian ev 1 0 [0; 1] [0.5; 0.25]%float [1; 2; 3]%float
    = updateJacobian ev 1 0 [1; 0] [0.5; 0.25]%float [1; 2; 3]%float.
Proof.
  intros ev.
  apply (selection_order_irrelevant ev 1 0 0 [1; 2; 3]%float [0; 1] [1; 0] []
           [0.5; 0.25]%float).
  - apply WellFormed_tree; [apply exampleEvaluator_WellFormed|cbn; lia].
  - apply (bool_decide_unpack _). vm_compute. exact I.
  - intros leafId Hin. change [0; 1] with (seq 0 2) in Hin.
    apply elem_of_seq in Hin. cbn. lia.
  - apply Permutation_swap.
Defined.

Lemma run_divisions_defined_witness :
  let ev := exampleEvaluator (topKLeaves 1) 2 in
  let jacobian := jacobianBefore ev 1 1 1 in
  UpdateLeavesDerivativesForTree_checked ev (GetLeafIdToUpdate ev 1 jacobian) 1 jacobian
    1 1 []
  = Some ((leafDerivativesOf ev 1 !!! 1) !!! 1).
Proof.
  intros ev jacobian.
  apply (run_divisions_defined (sorter := insertion_sort_algorithm)
           insertion_sort_Permutation ev 1 1 1);
    [apply exampleEvaluator_WellFormed|cbn; lia|cbn; lia|cbn; lia|].
  intros [|[|leafId]] Hlt; [vm_compute; reflexivity..|cbn in Hlt; lia].
Defined.

Lemma no_passes_derivatives_at_zero_witness :
  FinalFirstDerivatives
    (UpdateFinalFirstDerivatives (exampleEvaluator allPoints 0)
       (poolLeafIndices examplePool) examplePool)
  = EvaluateDerivatives (replicate (GetDocCount examplePool) d_zero) examplePool.
Proof.
  apply (no_passes_derivatives_at_zero (collaborators := test_collaborators)
           (exampleEvaluator allPoints 0) (poolLeafIndices examplePool) examplePool).
  right. reflexivity.
Defined.

Lemma no_trees_matrix_witness :
  let ev' := (GetDocumentImportances noTreeEvaluator examplePool).1 in
  (GetDocumentImportances noTreeEvaluator examplePool).2
  = replicate (DocCount noTreeEvaluator)
      ((λ docId, FinalFirstDerivatives ev' !!! docId ⊗ d_zero)
         <$> seq 0 (GetDocCount examplePool)).
Proof.
  intros ev'.
  apply (no_trees_matrix (sorter := insertion_sort_algorithm)
           (collaborators := test_collaborators) noTreeEvaluator examplePool).
  reflexivity.
Defined.

Lemma all_points_jacobian_update_witness :
  let ev := exampleEvaluator allPoints 2 in
  let jacobian := jacobianBefore ev 1 0 1 in
  let derivatives :=
    UpdateLeavesDerivativesForTree ev (GetLeafIdToUpdate ev 0 jacobian) 1 jacobian 0 1
      [] in
  (propagateIteration ev 1 0 1 (jacobian, [])).1 !!! 2
  = jacobian !!! 2 ⊕ derivatives !!! (LeafIndices (TreesStatistics ev !!! 0) !!! 2).
Proof.
  intros ev jacobian derivatives.
  apply (all_points_jacobian_update (sorter := insertion_sort_algorithm)
           insertion_sort_Permutation ev 1 0 1 jacobian [] 2);
    [reflexivity| |apply length_jacobianBefore|cbn; lia|cbn; lia].
  apply WellFormed_tree; [apply exampleEvaluator_WellFormed|cbn; lia].
Defined.

Lemma top_k_selection_grows_with_top_size_witness :
  let ev := exampleEvaluator allPoints 2 in
  GetLeafIdToUpdate (set_UpdateMethod (topKLeaves 1) ev) 1 [0; 0.5; 0.25]%float
  `prefix_of`
  GetLeafIdToUpdate (set_UpdateMethod (topKLeaves 2) ev) 1 [0; 0.5; 0.25]%float.
Proof.
  intros ev.
  apply (top_k_selection_grows_with_top_size (sorter := insertion_sort_algorithm)
           ev 1 [0; 0.5; 0.25]%float 1 2).
  lia.
Defined.

Lemma UpdateLeavesDerivativesForTree_reads_selected_buckets_witness :
  let ev := exampleEvaluator (topKLeaves 1) 2 in
  UpdateLeavesDerivativesForTree ev [0] 0 [1; 2; 3]%float 0 0 []
  = UpdateLeavesDerivativesForTree ev [0] 0 [1; 5; 7]%float 0 0 [].
Proof.
  intros ev.
  apply (UpdateLeavesDerivativesForTree_reads_selected_buckets ev [0] 0
           [1; 2; 3]%float [1; 5; 7]%float 0 0 []); [|reflexivity].
  intros leafId docId Hleaf Hdoc.
  apply elem_of_cons in Hleaf as [->|Hleaf]; [|by apply elem_of_nil in Hleaf].
  cbn in Hdoc.
  apply elem_of_cons in Hdoc as [->|Hdoc]; [|by apply elem_of_nil in Hdoc].
  reflexivity.
Defined.

(** ** Where the matrix without iterations is not zero *)

(** C7.  Without leaf estimation iterations the matrix need not be zero.
    On a pool whose first target is negative and whose second is infinite, the
    derivatives at the zero approxes are [-1] and [infinity]: the first
    column of the matrix holds [-0.0], which is not the zero [0.0], and the
    second holds NaN, which does not even compare equal to zero. *)
Lemma no_iterations_zero_matrix_counterexample :
  let ev := exampleEvaluator allPoints 0 in
  let importances := (GetDocumentImportances ev negativeAndInfiniteTargetsPool).2 in
  LeavesEstimationIterations ev = 0
  ∧ importances = replicate 3 [-0; nan]%float
  ∧ (importances !!! 0) !!! 0 ≠ d_zero
  ∧ d_is_zero ((importances !!! 0) !!! 1) = false
  ∧ importances ≠ replicate 3 (replicate 2 d_zero).
Proof.
  intros ev importances.
  assert (importances = replicate 3 [-0; nan]%float) as Hvalue
    by (vm_compute; reflexivity).
  split_and!; [reflexivity|exact Hvalue| | |].
  - rewrite Hvalue. intros Heq. apply (f_equal PrimFloat.classify) in Heq.
    vm_compute in Heq. discriminate Heq.
  - rewrite Hvalue. vm_compute. reflexivity.
  - rewrite Hvalue. intros Heq.
    apply (f_equal (λ m, PrimFloat.classify ((m !!! 0) !!! 1))) in Heq.
    vm_compute in Heq. discriminate Heq.
Qed.
